(** * FlowBuds: the message bus of [main.py]

    A shallow embedding of the publish/subscribe bus ([MessageBus]) and of
    the mailboxes it delivers into ([queue.Queue]), followed by the
    properties of the bus: fan-out, ordering, statistics, behaviour on
    values outside [MessageType], the publish counter, the registry
    invariant, unsubscription, the frame of each operation, locking, and the
    subscribe/unsubscribe round trip.

    Python objects are mutable and shared.  The bus is one record; the
    queues live in a store indexed by queue identity, so that one queue
    registered under several message types is one object.  Every method is
    a function from worlds to outcomes: it returns, raises, or blocks. *)

From stdpp Require Import base numbers list strings pretty finite gmap.

(** ** MessageType (main.py, lines 13-19) *)

Inductive MessageType := ORDER | PAYMENT | INVENTORY | SHIPPING | NOTIFICATION.

(** Iteration order of the enumeration ([for msg_type in MessageType]). *)
Definition MessageType_members : list MessageType :=
  [ORDER; PAYMENT; INVENTORY; SHIPPING; NOTIFICATION].

#[global] Instance MessageType_eq_dec : EqDecision MessageType.
Proof. solve_decision. Defined.

#[global] Instance MessageType_finite : Finite MessageType.
Proof.
  refine {| enum := MessageType_members |}.
  - by apply (bool_decide_unpack _).
  - by intros []; apply (bool_decide_unpack _).
Defined.

(** [msg_type.value]: the display label of a member. *)
Definition value (t : MessageType) : string :=
  match t with
  | ORDER => "订单"%string
  | PAYMENT => "支付"%string
  | INVENTORY => "库存"%string
  | SHIPPING => "物流"%string
  | NOTIFICATION => "通知"%string
  end.

(** Python is dynamically typed: the parameter annotated [MessageType] can
    receive any object.  What the bus does with an object that is not a
    member depends on two facts only: whether it can be hashed (a dict key
    must be) and whether it has a [value] attribute (which [Message.__str__]
    reads). *)
Inductive pyobj :=
  | Member (t : MessageType)
  | Foreign (hashable : bool) (value_attr : option string).

#[global] Instance pyobj_eq_dec : EqDecision pyobj.
Proof. solve_decision. Defined.

Definition is_member (o : pyobj) : bool :=
  match o with Member _ => true | Foreign _ _ => false end.

(** ** Message (main.py, lines 22-32) *)

Record Message := mkMessage {
  msg_type : pyobj;
  content : string;
  sender : string;
  timestamp : Z   (* the reading of [time.time()], never interpreted *)
}.

#[global] Instance Message_eq_dec : EqDecision Message.
Proof. solve_decision. Defined.

(** A well-formed message carries a member of [MessageType]. *)
Definition well_formed (m : Message) : Prop := is_member (msg_type m) = true.

(** ** queue.Queue

    A queue object is its identity together with the [maxsize] it was
    constructed with (immutable); its deque of items is kept in the store.
    [maxsize <= 0] means unbounded, as in the standard library. *)

Record Queue := mkQueue { qid : positive; maxsize : Z }.

#[global] Instance Queue_eq_dec : EqDecision Queue.
Proof. solve_decision. Defined.

#[global] Instance Queue_countable : Countable Queue.
Proof.
  apply (inj_countable' (λ q, (qid q, maxsize q)) (λ p, mkQueue p.1 p.2)).
  by intros [].
Defined.

(** Calls observed on the queues, oldest first. *)
Inductive event :=
  | EvPut (q : Queue) (m : Message)
  | EvGet (q : Queue) (m : Message).

#[global] Instance event_eq_dec : EqDecision event.
Proof. solve_decision. Defined.

(** ** MessageBus state and the world it lives in *)

Record MessageBus := mkBus {
  name : string;
  subscribers : gmap MessageType (list Queue);
  lock : bool;              (* [threading.Lock]: true when held *)
  message_count : Z
}.

Record World := mkWorld {
  bus : MessageBus;
  store : gmap Queue (list Message);
  trace : list event
}.

(** The deque of a queue; a queue nothing was put into is empty. *)
Definition items (w : World) (q : Queue) : list Message :=
  default [] (store w !! q).

(** The subscriber list of a member ([[]] when the key is missing). *)
Definition registered (b : MessageBus) (t : MessageType) : list Queue :=
  default [] (subscribers b !! t).

Definition set_lock (v : bool) (w : World) : World :=
  mkWorld (mkBus (name (bus w)) (subscribers (bus w)) v (message_count (bus w)))
          (store w) (trace w).

Definition set_subscribers (s : gmap MessageType (list Queue)) (w : World) : World :=
  mkWorld (mkBus (name (bus w)) s (lock (bus w)) (message_count (bus w)))
          (store w) (trace w).

Definition set_message_count (n : Z) (w : World) : World :=
  mkWorld (mkBus (name (bus w)) (subscribers (bus w)) (lock (bus w)) n)
          (store w) (trace w).

(** ** Outcomes of a call *)

Inductive exn := KeyError | TypeError | AttributeError | ValueError | QueueEmpty.

(** What a suspended thread waits for. *)
Inductive wait :=
  | OnLock              (* [lock.acquire()] on a held lock *)
  | OnPut (q : Queue).  (* [q.put(m)] on a full queue *)

Inductive outcome (A : Type) :=
  | Returns (a : A) (w : World)
  | Raises (e : exn) (w : World)
  | Blocks (on : wait) (w : World).

Arguments Returns {A} a w.
Arguments Raises {A} e w.
Arguments Blocks {A} on w.

Definition M (A : Type) : Type := World → outcome A.

Definition ret {A} (a : A) : M A := λ w, Returns a w.

Definition bind {A B} (c : M A) (k : A → M B) : M B := λ w,
  match c w with
  | Returns a w' => k a w'
  | Raises e w' => Raises e w'
  | Blocks on w' => Blocks on w'
  end.

Declare Scope bus_scope.
Delimit Scope bus_scope with bus.
Notation "'let*' x ':=' c 'in' k" := (bind c (λ x, k))
  (at level 10, x name, c at level 100, k at level 200) : bus_scope.
Notation "c ;; k" := (bind c (λ _, k))
  (at level 100, right associativity) : bus_scope.
Local Open Scope bus_scope.

(** The world a call leaves behind, whatever its outcome. *)
Definition after {A} (o : outcome A) : World :=
  match o with Returns _ w | Raises _ w | Blocks _ w => w end.

Definition returns {A} (o : outcome A) : bool :=
  match o with Returns _ _ => true | _ => false end.

Definition raises {A} (o : outcome A) : bool :=
  match o with Raises _ _ => true | _ => false end.

Definition blocks {A} (o : outcome A) : bool :=
  match o with Blocks _ _ => true | _ => false end.

(** [for x in l: body(x)] *)
Fixpoint for_each {A} (l : list A) (body : A → M unit) : M unit :=
  match l with
  | [] => ret tt
  | x :: l' => body x ;; for_each l' body
  end.

(** ** The lock: [with self.lock:] *)

Definition acquire : M unit := λ w,
  if lock (bus w) then Blocks OnLock w else Returns tt (set_lock true w).

Definition release (w : World) : World := set_lock false w.

(** The lock is released when the body returns and when it raises; a body
    suspended inside the block keeps it. *)
Definition with_lock {A} (body : M A) : M A := λ w,
  match acquire w with
  | Returns _ w1 =>
      match body w1 with
      | Returns a w2 => Returns a (release w2)
      | Raises e w2 => Raises e (release w2)
      | Blocks on w2 => Blocks on w2
      end
  | Raises e w1 => Raises e w1
  | Blocks on w1 => Blocks on w1
  end.

(** ** queue.Queue operations

    The mailboxes are [queue.Queue] objects of the Python standard library,
    which is not part of the repository; the three definitions below follow
    the Mailbox contract of the specification (section 4.3) for the calls
    the sources make: [put(message)] and [get(timeout=...)]. *)

(** Modelled from the spec: a mailbox is full when it is bounded
    ([maxsize > 0]) and holds [maxsize] items. *)
Definition full (w : World) (q : Queue) : bool :=
  bool_decide (0 < maxsize q)%Z &&
  bool_decide (maxsize q ≤ Z.of_nat (length (items w q)))%Z.

Definition enqueue (q : Queue) (m : Message) (w : World) : World :=
  mkWorld (bus w) (<[q := items w q ++ [m]]> (store w)) (trace w ++ [EvPut q m]).

(** Modelled from the spec: [put] enqueues at the tail, and blocks while the
    mailbox is bounded and full. *)
Definition put (q : Queue) (m : Message) : M unit := λ w,
  if full w q then Blocks (OnPut q) w else Returns tt (enqueue q m w).

(** Modelled from the spec: [get] dequeues the oldest message; when there is
    none within the timeout it signals [queue.Empty]. *)
Definition get (q : Queue) : M Message := λ w,
  match items w q with
  | [] => Raises QueueEmpty w
  | m :: rest =>
      Returns m (mkWorld (bus w) (<[q := rest]> (store w)) (trace w ++ [EvGet q m]))
  end.

(** ** Message.__str__ (main.py, lines 31-32) *)

Definition attr_value (o : pyobj) : M string := λ w,
  match o with
  | Member t => Returns (value t) w
  | Foreign _ (Some v) => Returns v w
  | Foreign _ None => Raises AttributeError w
  end.

Definition Message_str (m : Message) : M string :=
  let* v := attr_value (msg_type m) in
  ret ("[" +:+ v +:+ "] " +:+ sender m +:+ ": " +:+ content m).

(** ** MessageBus (main.py, lines 35-84) *)

(** [__init__]: an empty subscriber list for every member, a free lock and a
    zero counter. *)
Definition MessageBus_init (name : string) : MessageBus :=
  mkBus name
        (foldl (λ subs msg_type, <[msg_type := []]> subs) ∅ MessageType_members)
        false 0.

Definition default_name : string := "主消息总线"%string.

(** A freshly constructed bus, no queue touched yet. *)
Definition initial_world (name : string) : World :=
  mkWorld (MessageBus_init name) ∅ [].

(** [self.subscribers[k]] *)
Definition getitem (k : pyobj) : M (list Queue) := λ w,
  match k with
  | Member t =>
      match subscribers (bus w) !! t with
      | Some l => Returns l w
      | None => Raises KeyError w
      end
  | Foreign true _ => Raises KeyError w
  | Foreign false _ => Raises TypeError w
  end.

(** [self.subscribers.get(k, [])] *)
Definition get_or_empty (k : pyobj) : M (list Queue) := λ w,
  match k with
  | Member t => Returns (registered (bus w) t) w
  | Foreign true _ => Returns [] w
  | Foreign false _ => Raises TypeError w
  end.

(** The list held under key [k] is a shared object: [append] and [remove]
    mutate it in place, which the dict then shows. *)
Definition update_list (k : pyobj) (f : list Queue → M (list Queue)) : M unit :=
  let* l := getitem k in
  let* l' := f l in
  λ w, match k with
       | Member t => Returns tt (set_subscribers (<[t := l']> (subscribers (bus w))) w)
       | Foreign _ _ => Raises KeyError w
       end.

(** [list.remove(x)]: drops the first occurrence, [ValueError] if none. *)
Fixpoint list_remove (x : Queue) (l : list Queue) : option (list Queue) :=
  match l with
  | [] => None
  | y :: l' => if decide (x = y) then Some l' else (y ::.) <$> list_remove x l'
  end.

Definition subscribe (msg_type : pyobj) (subscriber_queue : Queue) : M unit :=
  with_lock (
    let* subs := getitem msg_type in
    if decide (subscriber_queue ∈ subs) then ret tt
    else
      update_list msg_type (λ l, ret (l ++ [subscriber_queue])) ;;
      attr_value msg_type ;;      (* the print of line 57 *)
      ret tt).

Definition unsubscribe (msg_type : pyobj) (subscriber_queue : Queue) : M unit :=
  with_lock (
    let* subs := getitem msg_type in
    if decide (subscriber_queue ∈ subs) then
      update_list msg_type (λ l w,
        match list_remove subscriber_queue l with
        | Some l' => Returns l' w
        | None => Raises ValueError w
        end)
    else ret tt).

Definition incr_message_count : M unit := λ w,
  Returns tt (set_message_count (message_count (bus w) + 1) w).

(** The local [subscribers] is the list object of the registry itself, not
    a copy; the loop over it runs inside the [with] block, so no subscribe or
    unsubscribe can change it meanwhile. *)
Definition publish (message : Message) : M unit :=
  with_lock (
    incr_message_count ;;
    let* subscribers := get_or_empty (msg_type message) in
    Message_str message ;;        (* the print of line 71 formats the message *)
    for_each subscribers (λ sub_queue, put sub_queue message)).

Definition get_stats : M (gmap string Z) :=
  with_lock (λ w,
    Returns (map_fold (λ msg_type subs stats,
                         <[value msg_type := Z.of_nat (length subs)]> stats)
                      ∅ (subscribers (bus w))) w).

(** ** Consumer.run, one turn of the loop (main.py, lines 138-149)

    [queue.Empty] is caught; the turn then consumes nothing. *)
Definition consume (q : Queue) : M (option Message) := λ w,
  match get q w with
  | Returns m w' => Returns (Some m) w'
  | Raises QueueEmpty w' => Returns None w'
  | Raises e w' => Raises e w'
  | Blocks on w' => Blocks on w'
  end.

(** ** Sequences of calls

    Every method body of the bus is one [with self.lock:] block, so the bus
    calls of concurrent producers and consumers are serialised in the order
    in which they acquire the lock: an execution is a sequence of calls,
    each run from the world its predecessor left.  A consumer's [get] takes
    no bus lock and may fall between two puts of one dispatch loop; it
    touches one queue, at the other end than [put], so it is placed before
    or after that publish in the sequence.  A publish that meets a full
    queue which no consumer ever drains is a call that blocks. *)

Inductive call :=
  | Subscribe (msg_type : pyobj) (q : Queue)
  | Unsubscribe (msg_type : pyobj) (q : Queue)
  | Publish (m : Message)
  | GetStats
  | Consume (q : Queue).

#[global] Instance call_eq_dec : EqDecision call.
Proof. solve_decision. Defined.

Definition exec (c : call) : M unit :=
  match c with
  | Subscribe t q => subscribe t q
  | Unsubscribe t q => unsubscribe t q
  | Publish m => publish m
  | GetStats => get_stats ;; ret tt
  | Consume q => consume q ;; ret tt
  end.

(** One caller making the calls in turn: the first call that raises or
    blocks ends the sequence. *)
Definition run (cs : list call) : M unit := for_each cs exec.

(** Any callers: whatever the outcome of a call (an exception is the
    caller's to handle, a blocked caller stays suspended), the next call
    starts from the world it left. *)
Definition history (cs : list call) (w : World) : World :=
  foldl (λ w c, after (exec c w)) w cs.

(** ** Vocabulary of the properties *)

(** The registry invariant: every member has its list, and no list holds a
    queue twice. *)
Definition registry_wf (b : MessageBus) : Prop :=
  ∀ t, is_Some (subscribers b !! t) ∧ NoDup (registered b t).

(** The mailboxes a publish of [m] is dispatched to. *)
Definition targets (b : MessageBus) (m : Message) : list Queue :=
  match msg_type m with
  | Member t => registered b t
  | Foreign _ _ => []
  end.

(** Messages put into [q], and messages got from [q], along a trace. *)
Definition puts_into (q : Queue) (tr : list event) : list Message :=
  omap (λ e, match e with
             | EvPut q' m => if decide (q' = q) then Some m else None
             | EvGet _ _ => None
             end) tr.

Definition gets_from (q : Queue) (tr : list event) : list Message :=
  omap (λ e, match e with
             | EvGet q' m => if decide (q' = q) then Some m else None
             | EvPut _ _ => None
             end) tr.

Definition of_type (t : MessageType) (m : Message) : Prop := msg_type m = Member t.

#[global] Instance of_type_dec t m : Decision (of_type t m).
Proof. unfold of_type. apply _. Defined.

(** The messages of type [t] published by a sequence of calls, in call
    order. *)
Definition published (t : MessageType) (cs : list call) : list Message :=
  omap (λ c, match c with
             | Publish m => if decide (of_type t m) then Some m else None
             | _ => None
             end) cs.

Definition is_publish (c : call) : bool :=
  match c with Publish _ => true | _ => false end.

Definition count_publish (cs : list call) : nat :=
  length (filter (λ c, is_publish c = true) cs).

(** The world once publish has incremented the counter. *)
Definition counted (w : World) : World :=
  set_message_count (message_count (bus w) + 1) w.

(** The world after the puts of a dispatch loop over [l]. *)
Definition deliver (m : Message) (l : list Queue) (w : World) : World :=
  foldl (λ w q, enqueue q m w) w l.

(** ** Concrete objects used in the examples below *)

Definition inbox : Queue := mkQueue 1 0.        (* [queue.Queue()] *)
Definition small : Queue := mkQueue 2 1.        (* [queue.Queue(maxsize=1)] *)
Definition other : Queue := mkQueue 3 20.       (* [queue.Queue(maxsize=20)] *)

Definition o1 : Message := mkMessage (Member ORDER) "o1" "A" 1.
Definition o2 : Message := mkMessage (Member ORDER) "o2" "B" 2.
Definition o3 : Message := mkMessage (Member ORDER) "o3" "A" 3.
Definition p1 : Message := mkMessage (Member PAYMENT) "p1" "C" 4.

(** A member of some other enumeration: hashable, with a [value]. *)
Definition alien : pyobj := Foreign true (Some "alien"%string).
Definition stray : Message := mkMessage alien "x" "A" 5.

Definition fresh : World := initial_world default_name.

(** ** The client roles (main.py, lines 87-151 and 254-288)

    Producer, Consumer and ProcessingConsumer are threads; each [run] is
    modelled as the thread running on its own from a given world.  The
    [time.sleep] calls change nothing and are left out; [time.time()], read
    when a Message is built, is an input: [now i] is the reading for the
    [i]-th message a role builds.  The identity of a queue object a role
    creates is an input too. *)

Module Producer.

Record t := mk { name : string; msg_type : pyobj; count : Z }.

(** [f"{self.msg_type.value}数据-{i + 1}"] *)
Definition content_of (label : string) (i : nat) : string :=
  label +:+ "数据-" +:+ pretty (Z.of_nat i + 1)%Z.

(** [run]: the first print reads [self.msg_type.value]; then, for [i] in
    [range(self.count)], a message is built and published. *)
Definition run (now : nat → Z) (self : t) : M unit :=
  attr_value (msg_type self) ;;
  for_each (seq 0 (Z.to_nat (count self))) (λ i,
    let* label := attr_value (msg_type self) in
    publish (mkMessage (msg_type self) (content_of label i) (name self) (now i))).

(** The messages a producer of the member [t] builds, in order. *)
Definition messages (now : nat → Z) (self : t) (ty : MessageType) : list Message :=
  (λ i, mkMessage (Member ty) (content_of (value ty) i) (name self) (now i))
    <$> seq 0 (Z.to_nat (count self)).

End Producer.

Module Consumer.

Record t := mk {
  name : string;
  interested_types : list pyobj;
  count : Z;
  message_queue : Queue
}.

(** [__init__]: a new [queue.Queue(maxsize=20)], of identity [id], is
    subscribed to every interested type in turn. *)
Definition init (id : positive) (name : string) (interested_types : list pyobj)
    (count : Z) : M t :=
  let self := mk name interested_types count (mkQueue id 20) in
  for_each interested_types (λ msg_type, subscribe msg_type (message_queue self)) ;;
  ret self.

(** The [while consumed < self.count] loop.  A turn that finds the queue
    empty changes nothing and the loop goes on, so the loop need not end:
    [fuel] bounds the number of turns and [None] is a loop still running
    when the fuel is spent.  The print of a message that was got formats it
    with [Message.__str__]. *)
Fixpoint loop (fuel : nat) (self : t) (consumed : Z) (w : World)
    : option (outcome unit) :=
  if decide (consumed < count self)%Z then
    match fuel with
    | 0 => None
    | S fuel' =>
        match get (message_queue self) w with
        | Returns message w1 =>
            match Message_str message w1 with
            | Returns _ w2 => loop fuel' self (consumed + 1)%Z w2
            | Raises e w2 => Some (Raises e w2)
            | Blocks on w2 => Some (Blocks on w2)
            end
        | Raises QueueEmpty w1 => loop fuel' self consumed w1
        | Raises e w1 => Some (Raises e w1)
        | Blocks on w1 => Some (Blocks on w1)
        end
    end
  else Some (Returns tt w).

(** [run]: the first print joins [t.value] over the interested types. *)
Definition run (fuel : nat) (self : t) (w : World) : option (outcome unit) :=
  match for_each (interested_types self) (λ t, attr_value t ;; ret tt) w with
  | Returns _ w1 => loop fuel self 0 w1
  | Raises e w1 => Some (Raises e w1)
  | Blocks on w1 => Some (Blocks on w1)
  end.

End Consumer.

Module ProcessingConsumer.

Record t := mk {
  name : string;
  input_type : pyobj;
  output_type : pyobj;
  count : Z;
  message_queue : Queue
}.

(** [__init__]: a new unbounded [queue.Queue()] subscribed to the input
    type. *)
Definition init (id : positive) (name : string) (input_type output_type : pyobj)
    (count : Z) : M t :=
  let self := mk name input_type output_type count (mkQueue id 0) in
  subscribe input_type (message_queue self) ;;
  ret self.

(** [f"已处理-{message.content}"] *)
Definition processed_content (c : string) : string := "已处理-" +:+ c.

(** The [while processed < self.count] loop, with [n] the turns that remain
    ([count - processed]): every turn either republishes one message and
    increments [processed], or finds the queue empty and breaks. *)
Fixpoint loop (now : nat → Z) (self : t) (n : nat) (processed : nat) : M unit :=
  match n with
  | 0 => ret tt
  | S n' => λ w,
      match get (message_queue self) w with
      | Returns message w1 =>
          (publish (mkMessage (output_type self) (processed_content (content message))
                              (name self) (now processed)) ;;
           loop now self n' (S processed)) w1
      | Raises QueueEmpty w1 => Returns tt w1
      | Raises e w1 => Raises e w1
      | Blocks on w1 => Blocks on w1
      end
  end.

(** [run]: the first print reads the [value] of both types. *)
Definition run (now : nat → Z) (self : t) : M unit :=
  attr_value (input_type self) ;;
  attr_value (output_type self) ;;
  loop now self (Z.to_nat (count self)) 0.


End ProcessingConsumer.

(** ** Vocabulary of the properties of sequences of publishes *)

(** The world a publish that returns leaves. *)
Definition publish_done (m : Message) (w : World) : World :=
  deliver m (targets (bus w) m) (counted w).

(** The world a sequence of publishes that all return leaves. *)
Definition published_world (ms : list Message) (w : World) : World :=
  foldl (λ w m, publish_done m w) w ms.

(** Every registered queue is unbounded or has [n] free slots. *)
Definition roomy (n : nat) (w : World) : Prop :=
  ∀ t q, q ∈ registered (bus w) t →
    (maxsize q ≤ 0 ∨ Z.of_nat (length (items w q)) + Z.of_nat n ≤ maxsize q)%Z.

(** No bounded queue holds more than its [maxsize]. *)
Definition within_capacity (w : World) : Prop :=
  ∀ q, (0 < maxsize q)%Z → (Z.of_nat (length (items w q)) ≤ maxsize q)%Z.

(** The object has a [value] attribute; [__str__] of [m] does not raise. *)
Definition has_value (o : pyobj) : Prop :=
  match o with Foreign _ None => False | _ => True end.

Definition printable (m : Message) : Prop := has_value (msg_type m).

(** * Properties *)

(** A decidable statement about concrete objects, settled by evaluation. *)
Ltac decide_closed := apply (bool_decide_unpack _); vm_compute; exact I.

(** ** The lock *)

Lemma with_lock_held {A} (body : M A) w :
  lock (bus w) = true → with_lock body w = Blocks OnLock w.
Proof. intros H. unfold with_lock, acquire. by rewrite H. Qed.

Lemma with_lock_free {A} (body : M A) w :
  lock (bus w) = false →
  with_lock body w =
    match body (set_lock true w) with
    | Returns a w2 => Returns a (release w2)
    | Raises e w2 => Raises e (release w2)
    | Blocks on w2 => Blocks on w2
    end.
Proof. intros H. unfold with_lock, acquire. by rewrite H. Qed.

Lemma release_acquired w : lock (bus w) = false → release (set_lock true w) = w.
Proof. destruct w as [[] ? ?]; simpl. by intros ->. Qed.

(** ** list.remove *)

Lemma list_remove_elem x l : x ∈ l → is_Some (list_remove x l).
Proof.
  induction l as [|y l IH]; intros Hx; [by apply elem_of_nil in Hx|].
  simpl. case_decide; [done|].
  apply elem_of_cons in Hx as [?|Hx]; [done|].
  destruct (IH Hx) as [l' ->]. done.
Qed.

Lemma filter_all (P : Queue → Prop) `{∀ x, Decision (P x)} (l : list Queue) :
  (∀ x, x ∈ l → P x) → filter P l = l.
Proof.
  induction l as [|y l IH]; intros HP; [done|].
  rewrite filter_cons_True by (apply HP; left).
  f_equal. apply IH. intros x Hx. apply HP. by right.
Qed.

(** On a list without repetition, [remove] keeps the others, in order. *)
Lemma list_remove_filter x l l' :
  NoDup l → list_remove x l = Some l' → l' = filter (λ y, y ≠ x) l.
Proof.
  revert l'. induction l as [|y l IH]; intros l' Hnd Hr; [done|].
  apply NoDup_cons in Hnd as [Hy Hnd]. simpl in Hr.
  case_decide as Hxy.
  - subst y. injection Hr as <-. rewrite filter_cons_False by naive_solver.
    symmetry. apply filter_all. intros z Hz ->. done.
  - destruct (list_remove x l) as [l0|] eqn:E; [|done].
    injection Hr as <-. rewrite filter_cons_True by naive_solver.
    f_equal. by apply IH.
Qed.

(** Appending then removing a queue that was not there gives the list back. *)
Lemma list_remove_snoc x l : x ∉ l → list_remove x (l ++ [x]) = Some l.
Proof.
  induction l as [|y l IH]; intros Hx; simpl.
  - by rewrite decide_True.
  - apply not_elem_of_cons in Hx as [Hxy Hx].
    rewrite decide_False by done. by rewrite IH.
Qed.

(** ** Enqueuing *)

Lemma items_enqueue q m w q' :
  items (enqueue q m w) q' = if decide (q = q') then items w q' ++ [m] else items w q'.
Proof.
  unfold items, enqueue; simpl. case_decide as E.
  - subst. by rewrite lookup_insert_eq.
  - by rewrite lookup_insert_ne.
Qed.

Lemma bus_deliver m l w : bus (deliver m l w) = bus w.
Proof. revert w. induction l as [|q l IH]; intros w; [done|]. simpl. by rewrite IH. Qed.

Lemma trace_deliver m l w :
  trace (deliver m l w) = trace w ++ ((λ q, EvPut q m) <$> l).
Proof.
  revert w. induction l as [|q l IH]; intros w; simpl.
  - by rewrite app_nil_r.
  - rewrite IH. simpl. by rewrite <-app_assoc.
Qed.

Lemma items_deliver_notin m l w q :
  q ∉ l → items (deliver m l w) q = items w q.
Proof.
  revert w. induction l as [|x l IH]; intros w Hq; [done|].
  apply not_elem_of_cons in Hq as [Hqx Hq]. simpl.
  rewrite IH by done. rewrite items_enqueue. by rewrite decide_False.
Qed.

Lemma items_deliver m l w q :
  NoDup l →
  items (deliver m l w) q = items w q ++ (if decide (q ∈ l) then [m] else []).
Proof.
  revert w. induction l as [|x l IH]; intros w Hnd.
  - rewrite decide_False by apply not_elem_of_nil. by rewrite app_nil_r.
  - change (deliver m (x :: l) w) with (deliver m l (enqueue x m w)).
    apply NoDup_cons in Hnd as [Hx Hnd]. rewrite IH by done.
    rewrite items_enqueue. destruct (decide (x = q)) as [->|Hne].
    + rewrite decide_False by done. rewrite decide_True by left. by rewrite app_nil_r.
    + destruct (decide (q ∈ l)) as [Hin|Hout].
      * rewrite decide_True; [done|by right].
      * rewrite decide_False; [done|]. apply not_elem_of_cons. naive_solver.
Qed.

Lemma set_lock_deliver v m l w : set_lock v (deliver m l w) = deliver m l (set_lock v w).
Proof. revert w. induction l as [|x l IH]; intros w; [done|]. simpl. by rewrite IH. Qed.

Lemma release_deliver m l w : release (deliver m l w) = deliver m l (release w).
Proof. apply set_lock_deliver. Qed.

Lemma full_set_lock v w q : full (set_lock v w) q = full w q.
Proof. done. Qed.

(** ** The dispatch loop of publish *)

Lemma for_each_cons {A} (x : A) l body w :
  for_each (x :: l) body w =
    match body x w with
    | Returns _ w' => for_each l body w'
    | Raises e w' => Raises e w'
    | Blocks on w' => Blocks on w'
    end.
Proof. done. Qed.

Lemma put_full q m w : full w q = true → put q m w = Blocks (OnPut q) w.
Proof. intros H. unfold put. by rewrite H. Qed.

Lemma put_room q m w : full w q = false → put q m w = Returns tt (enqueue q m w).
Proof. intros H. unfold put. by rewrite H. Qed.

(** The loop puts into the queues in list order until it meets a full one,
    where it blocks; it never raises. *)
Lemma dispatch_cases m l w :
  for_each l (λ sub_queue, put sub_queue m) w = Returns tt (deliver m l w)
  ∨ ∃ pre q rest, l = pre ++ q :: rest
      ∧ full (deliver m pre w) q = true
      ∧ for_each l (λ sub_queue, put sub_queue m) w = Blocks (OnPut q) (deliver m pre w).
Proof.
  revert w. induction l as [|x l IH]; intros w; [by left|].
  rewrite for_each_cons. destruct (full w x) eqn:Hf.
  - right. exists [], x, l. by rewrite put_full.
  - rewrite put_room by done.
    destruct (IH (enqueue x m w)) as [->|(pre & q & rest & -> & Hq & ->)]; [by left|].
    right. by exists (x :: pre), q, rest.
Qed.

Lemma full_deliver_notin m l w q : q ∉ l → full (deliver m l w) q = full w q.
Proof. intros Hq. unfold full. by rewrite items_deliver_notin. Qed.

(** With room in every target, the loop runs to its end. *)
Lemma dispatch_returns m l w :
  NoDup l → (∀ q, q ∈ l → full w q = false) →
  for_each l (λ sub_queue, put sub_queue m) w = Returns tt (deliver m l w).
Proof.
  intros Hnd Hroom.
  destruct (dispatch_cases m l w) as [?|(pre & q & rest & -> & Hq & _)]; [done|].
  apply NoDup_app in Hnd as (_ & Hdisj & _).
  rewrite full_deliver_notin in Hq.
  - rewrite Hroom in Hq; [done|]. apply elem_of_app. right. left.
  - intros Hin. apply (Hdisj q Hin). left.
Qed.

(** ** The methods, call by call *)

Lemma subscribe_eq k q w :
  lock (bus w) = false →
  subscribe k q w =
    match k with
    | Member t =>
        match subscribers (bus w) !! t with
        | Some l =>
            if decide (q ∈ l) then Returns tt w
            else Returns tt (set_subscribers (<[t := l ++ [q]]> (subscribers (bus w))) w)
        | None => Raises KeyError w
        end
    | Foreign true _ => Raises KeyError w
    | Foreign false _ => Raises TypeError w
    end.
Proof.
  destruct w as [[nm subs lk cnt] st tr]; simpl; intros ->.
  unfold subscribe. rewrite with_lock_free by done.
  unfold bind, update_list, bind, getitem, attr_value, ret, release, set_lock, set_subscribers; simpl.
  destruct k as [t|[] v]; [|done..].
  destruct (subs !! t) as [l|] eqn:E; [|done].
  destruct (decide (q ∈ l)); [done|]. simpl. by rewrite E.
Qed.

Lemma unsubscribe_eq k q w :
  lock (bus w) = false →
  unsubscribe k q w =
    match k with
    | Member t =>
        match subscribers (bus w) !! t with
        | Some l =>
            if decide (q ∈ l) then
              match list_remove q l with
              | Some l' => Returns tt (set_subscribers (<[t := l']> (subscribers (bus w))) w)
              | None => Raises ValueError w
              end
            else Returns tt w
        | None => Raises KeyError w
        end
    | Foreign true _ => Raises KeyError w
    | Foreign false _ => Raises TypeError w
    end.
Proof.
  destruct w as [[nm subs lk cnt] st tr]; simpl; intros ->.
  unfold unsubscribe. rewrite with_lock_free by done.
  unfold bind, update_list, bind, getitem, ret, release, set_lock, set_subscribers; simpl.
  destruct k as [t|[] v]; [|done..].
  destruct (subs !! t) as [l|] eqn:E; [|done].
  destruct (decide (q ∈ l)); [|done]. simpl. rewrite E.
  by destruct (list_remove q l).
Qed.

(** The world once the counter is incremented. *)
Lemma publish_eq m w :
  lock (bus w) = false →
  publish m w =
    match msg_type m with
    | Foreign false _ => Raises TypeError (counted w)
    | Foreign true None => Raises AttributeError (counted w)
    | _ =>
        match for_each (targets (bus w) m) (λ sub_queue, put sub_queue m)
                       (set_lock true (counted w)) with
        | Returns _ w' => Returns tt (release w')
        | Raises e w' => Raises e (release w')
        | Blocks on w' => Blocks on w'
        end
    end.
Proof.
  destruct w as [[nm subs lk cnt] st tr]; simpl; intros ->.
  unfold publish. rewrite with_lock_free by done.
  unfold bind, incr_message_count, get_or_empty, Message_str, bind, attr_value, ret,
    targets, counted, release, set_lock, set_message_count; simpl.
  destruct (msg_type m) as [t|[] [v|]]; try done;
    by destruct (for_each _ _ _) as [[]| |].
Qed.

Lemma get_stats_eq w :
  lock (bus w) = false →
  get_stats w =
    Returns (map_fold (λ msg_type subs stats,
                         <[value msg_type := Z.of_nat (length subs)]> stats)
                      ∅ (subscribers (bus w))) w.
Proof.
  intros H. unfold get_stats. rewrite with_lock_free by done.
  by rewrite release_acquired.
Qed.

(** Every outcome of publish on a free lock: it returns after the whole
    fan-out, or blocks at a full target after the puts before it, or raises
    before any put when the type is not a member. *)
Lemma publish_cases m w :
  lock (bus w) = false →
  publish m w = Returns tt (deliver m (targets (bus w) m) (counted w))
  ∨ (∃ pre q rest, targets (bus w) m = pre ++ q :: rest
       ∧ full (deliver m pre (counted w)) q = true
       ∧ publish m w = Blocks (OnPut q) (set_lock true (deliver m pre (counted w))))
  ∨ (∃ e, is_member (msg_type m) = false ∧ publish m w = Raises e (counted w)).
Proof.
  intros Hl. rewrite publish_eq by done.
  assert (lock (bus (counted w)) = false) as Hl' by done.
  destruct (dispatch_cases m (targets (bus w) m) (set_lock true (counted w)))
    as [E|(pre & q & rest & E1 & E2 & E3)].
  - destruct (msg_type m) as [t|[] [v|]];
      [| |right; right; by eexists..];
      left; rewrite E, release_deliver;
      by rewrite (release_acquired (counted w)).
  - destruct (msg_type m) as [t|[] [v|]] eqn:Et;
      [| |right; right; by eexists..];
      right; left; exists pre, q, rest; rewrite E3, set_lock_deliver;
      by rewrite <-set_lock_deliver, full_set_lock in E2.
Qed.

(** ** The world a call leaves, whatever its outcome *)

Lemma subscribe_after k q w :
  after (subscribe k q w) = w
  ∨ ∃ t l, k = Member t ∧ lock (bus w) = false ∧ subscribers (bus w) !! t = Some l
      ∧ (q ∉ l)
      ∧ subscribe k q w = Returns tt (set_subscribers (<[t := l ++ [q]]> (subscribers (bus w))) w).
Proof.
  destruct (lock (bus w)) eqn:Hl.
  - left. unfold subscribe. by rewrite with_lock_held.
  - rewrite subscribe_eq by done. destruct k as [t|[] v]; [|by left..].
    destruct (subscribers (bus w) !! t) as [l|] eqn:E; [|by left].
    destruct (decide (q ∈ l)); [by left|]. right. by exists t, l.
Qed.

Lemma unsubscribe_after k q w :
  after (unsubscribe k q w) = w
  ∨ ∃ t l l', k = Member t ∧ lock (bus w) = false ∧ subscribers (bus w) !! t = Some l
      ∧ q ∈ l ∧ list_remove q l = Some l'
      ∧ unsubscribe k q w = Returns tt (set_subscribers (<[t := l']> (subscribers (bus w))) w).
Proof.
  destruct (lock (bus w)) eqn:Hl.
  - left. unfold unsubscribe. by rewrite with_lock_held.
  - rewrite unsubscribe_eq by done. destruct k as [t|[] v]; [|by left..].
    destruct (subscribers (bus w) !! t) as [l|] eqn:E; [|by left].
    destruct (decide (q ∈ l)) as [Hin|]; [|by left].
    destruct (list_remove_elem q l Hin) as [l' El]. rewrite El.
    right. by exists t, l, l'.
Qed.

Lemma publish_after m w :
  after (publish m w) = w
  ∨ lock (bus w) = false
    ∧ ∃ pre b, pre `prefix_of` targets (bus w) m
        ∧ after (publish m w) = set_lock b (deliver m pre (counted w)).
Proof.
  destruct (lock (bus w)) eqn:Hl.
  - left. unfold publish. by rewrite with_lock_held.
  - right. split; [done|].
    destruct (publish_cases m w Hl) as [E|[(pre & q & rest & Et & _ & E)|(e & _ & E)]];
      rewrite E; simpl.
    + exists (targets (bus w) m), false. split; [done|].
      rewrite set_lock_deliver. by rewrite <-(release_acquired (counted w)) at 1.
    + exists pre, true. split; [|done]. rewrite Et. by apply prefix_app_r.
    + exists [], false. split; [apply prefix_nil|].
      by rewrite <-(release_acquired (counted w)) at 1.
Qed.

Lemma get_stats_after w : after (get_stats w) = w.
Proof.
  destruct (lock (bus w)) eqn:Hl.
  - unfold get_stats. by rewrite with_lock_held.
  - by rewrite get_stats_eq.
Qed.

Lemma consume_cases q w :
  items w q = [] ∧ consume q w = Returns None w
  ∨ ∃ m rest, items w q = m :: rest
      ∧ consume q w =
          Returns (Some m) (mkWorld (bus w) (<[q := rest]> (store w)) (trace w ++ [EvGet q m])).
Proof.
  unfold consume, get. destruct (items w q) as [|m rest]; [by left|].
  right. by exists m, rest.
Qed.

(** ** Traces *)

Lemma puts_into_app q tr1 tr2 :
  puts_into q (tr1 ++ tr2) = puts_into q tr1 ++ puts_into q tr2.
Proof. apply omap_app. Qed.

Lemma gets_from_app q tr1 tr2 :
  gets_from q (tr1 ++ tr2) = gets_from q tr1 ++ gets_from q tr2.
Proof. apply omap_app. Qed.

Lemma gets_from_puts q m (l : list Queue) : gets_from q ((λ q', EvPut q' m) <$> l) = [].
Proof. by induction l. Qed.

Lemma puts_into_notin q m (l : list Queue) :
  q ∉ l → puts_into q ((λ q', EvPut q' m) <$> l) = [].
Proof.
  induction l as [|x l IH]; intros Hq; [done|].
  apply not_elem_of_cons in Hq as [Hqx Hq].
  rewrite fmap_cons. unfold puts_into in *. cbn [omap list_omap].
  rewrite decide_False by done. by apply IH.
Qed.

Lemma puts_into_NoDup q m (l : list Queue) :
  NoDup l → q ∈ l → puts_into q ((λ q', EvPut q' m) <$> l) = [m].
Proof.
  induction l as [|x l IH]; intros Hnd Hq; [by apply elem_of_nil in Hq|].
  apply NoDup_cons in Hnd as [Hx Hnd].
  rewrite fmap_cons. unfold puts_into in *. cbn [omap list_omap].
  destruct (decide (x = q)) as [->|Hne].
  - f_equal. by apply puts_into_notin.
  - apply elem_of_cons in Hq as [?|Hq]; [done|]. by apply IH.
Qed.

(** What a dispatch adds to a queue is what the trace says was put into it. *)
Lemma items_deliver_puts m l w q :
  items (deliver m l w) q = items w q ++ puts_into q ((λ q', EvPut q' m) <$> l).
Proof.
  revert w. induction l as [|x l IH]; intros w.
  - simpl. by rewrite app_nil_r.
  - change (deliver m (x :: l) w) with (deliver m l (enqueue x m w)).
    rewrite IH, items_enqueue, fmap_cons. unfold puts_into. cbn [omap list_omap].
    destruct (decide (x = q)); [by rewrite <-app_assoc|done].
Qed.

(** ** The registry *)

Lemma registered_lookup b t l : subscribers b !! t = Some l → registered b t = l.
Proof. unfold registered. by intros ->. Qed.

Lemma registered_elem b t q :
  q ∈ registered b t → ∃ l, subscribers b !! t = Some l ∧ q ∈ l.
Proof.
  unfold registered. destruct (subscribers b !! t) as [l|]; simpl; [eauto|].
  intros H. by apply elem_of_nil in H.
Qed.

Lemma registered_update w t l t' :
  registered (bus (set_subscribers (<[t := l]> (subscribers (bus w))) w)) t' =
    if decide (t = t') then l else registered (bus w) t'.
Proof.
  unfold registered; simpl. case_decide as E.
  - subst. by rewrite lookup_insert_eq.
  - by rewrite lookup_insert_ne.
Qed.

Lemma registry_wf_update w t l :
  registry_wf (bus w) → NoDup l →
  registry_wf (bus (set_subscribers (<[t := l]> (subscribers (bus w))) w)).
Proof.
  intros Hwf Hl t'. rewrite registered_update. simpl. destruct (decide (t = t')) as [->|Hne].
  - split; [|done]. rewrite lookup_insert_eq. eauto.
  - rewrite lookup_insert_ne by done. apply Hwf.
Qed.

Lemma registry_wf_same b b' :
  subscribers b' = subscribers b → registry_wf b → registry_wf b'.
Proof. intros E Hwf t. unfold registered. rewrite E. apply Hwf. Qed.

Lemma initial_wf nm : registry_wf (MessageBus_init nm).
Proof. intros []; split; vm_compute; eauto using NoDup_nil_2. Qed.

Lemma subscribers_publish m w :
  subscribers (bus (after (publish m w))) = subscribers (bus w).
Proof.
  destruct (publish_after m w) as [->|(_ & pre & b & _ & ->)]; [done|].
  simpl. by rewrite bus_deliver.
Qed.

Lemma after_then_ret {A} (c : M A) w : after ((c ;; ret tt) w) = after (c w).
Proof. unfold bind, ret. by destruct (c w). Qed.

Lemma bus_consume q w : bus (after (consume q w)) = bus w.
Proof.
  destruct (consume_cases q w) as [[_ ->]|(m & rest & _ & ->)]; done.
Qed.

(** The registry invariant survives every call. *)
Lemma exec_wf c w : registry_wf (bus w) → registry_wf (bus (after (exec c w))).
Proof.
  intros Hwf. destruct c as [k q|k q|m| |q]; simpl.
  - destruct (subscribe_after k q w) as [->|(t & l & _ & _ & El & Hq & ->)]; [done|].
    apply registry_wf_update; [done|].
    destruct (Hwf t) as [_ Hnd]. rewrite (registered_lookup _ _ _ El) in Hnd.
    apply NoDup_app. split_and!; [done| |apply NoDup_singleton].
    intros x Hx Hx'. apply list_elem_of_singleton in Hx'. by subst.
  - destruct (unsubscribe_after k q w) as [->|(t & l & l' & _ & _ & El & _ & Er & ->)]; [done|].
    apply registry_wf_update; [done|].
    destruct (Hwf t) as [_ Hnd]. rewrite (registered_lookup _ _ _ El) in Hnd.
    rewrite (list_remove_filter _ _ _ Hnd Er). by apply NoDup_filter.
  - eapply registry_wf_same; [apply subscribers_publish|done].
  - by rewrite after_then_ret, get_stats_after.
  - rewrite after_then_ret. eapply registry_wf_same; [|done]. by rewrite bus_consume.
Qed.

Lemma history_cons c cs w : history (c :: cs) w = history cs (after (exec c w)).
Proof. done. Qed.

Lemma history_wf cs w : registry_wf (bus w) → registry_wf (bus (history cs w)).
Proof.
  revert w. induction cs as [|c cs IH]; intros w Hwf; [done|].
  rewrite history_cons. by apply IH, exec_wf.
Qed.

(** Only [unsubscribe(t, q)] takes [q] out of the list of [t]. *)
Lemma exec_keeps_registered c w t q :
  q ∈ registered (bus w) t → c ≠ Unsubscribe (Member t) q →
  q ∈ registered (bus (after (exec c w))) t.
Proof.
  intros Hq Hc. destruct c as [k q'|k q'|m| |q']; simpl.
  - destruct (subscribe_after k q' w) as [->|(t' & l & _ & _ & El & _ & ->)]; [done|].
    cbn [after]. rewrite registered_update. case_decide as E; [|done].
    subst t'. rewrite (registered_lookup _ _ _ El) in Hq. apply elem_of_app. by left.
  - destruct (unsubscribe_after k q' w) as [->|(t' & l & l' & -> & _ & El & _ & Er & ->)]; [done|].
    cbn [after]. rewrite registered_update. case_decide as E; [|done].
    subst t'. rewrite (registered_lookup _ _ _ El) in Hq.
    assert (q ≠ q') as Hne by congruence.
    clear -Hq Er Hne. revert l' Er. induction l as [|y l IH]; intros l' Er; [done|].
    simpl in Er. case_decide as Ey.
    + subst y. injection Er as <-. apply elem_of_cons in Hq as [?|?]; done.
    + destruct (list_remove q' l) as [l0|]; [|done]. injection Er as <-.
      apply elem_of_cons in Hq as [->|Hq]; [left|right; by apply IH].
  - unfold registered. by rewrite subscribers_publish.
  - by rewrite after_then_ret, get_stats_after.
  - rewrite after_then_ret. unfold registered. by rewrite bus_consume.
Qed.

(** Only [subscribe(t, q)] puts [q] into the list of [t]. *)
Lemma exec_keeps_unregistered c w t q :
  registry_wf (bus w) →
  q ∉ registered (bus w) t → c ≠ Subscribe (Member t) q →
  q ∉ registered (bus (after (exec c w))) t.
Proof.
  intros Hwf Hq Hc. destruct c as [k q'|k q'|m| |q']; simpl.
  - destruct (subscribe_after k q' w) as [->|(t' & l & -> & _ & El & _ & ->)]; [done|].
    cbn [after]. rewrite registered_update. case_decide as E; [|done].
    subst t'. rewrite (registered_lookup _ _ _ El) in Hq.
    apply not_elem_of_app. split; [done|]. apply not_elem_of_cons.
    split; [congruence|apply not_elem_of_nil].
  - destruct (unsubscribe_after k q' w) as [->|(t' & l & l' & -> & _ & El & _ & Er & ->)]; [done|].
    cbn [after]. rewrite registered_update. case_decide as E; [|done].
    subst t'. destruct (Hwf t) as [_ Hnd].
    rewrite (registered_lookup _ _ _ El) in Hq, Hnd.
    rewrite (list_remove_filter _ _ _ Hnd Er), list_elem_of_filter.
    by intros [_ ?].
  - unfold registered. by rewrite subscribers_publish.
  - by rewrite after_then_ret, get_stats_after.
  - rewrite after_then_ret. unfold registered. by rewrite bus_consume.
Qed.

(** ** get_stats *)

#[global] Instance value_inj : Inj (=) (=) value.
Proof. by intros [] []. Qed.

(** The dict built by the loop of get_stats: one entry per key of the
    registry, under the label of the key. *)
Lemma stats_lookup (subs : gmap MessageType (list Queue)) s n :
  map_fold (λ msg_type l stats, <[value msg_type := Z.of_nat (length l)]> stats)
           (∅ : gmap string Z) subs !! s = Some n
  ↔ ∃ t l, s = value t ∧ subs !! t = Some l ∧ n = Z.of_nat (length l).
Proof.
  revert s n. apply (map_fold_weak_ind (λ stats subs, ∀ s n,
    stats !! s = Some n ↔ ∃ t l, s = value t ∧ subs !! t = Some l ∧ n = Z.of_nat (length l))).
  - intros s n. rewrite lookup_empty. split; [done|].
    intros (t & l & _ & E & _). by rewrite lookup_empty in E.
  - intros t l m r Hnone IH s n. destruct (decide (value t = s)) as [<-|Hne].
    + rewrite lookup_insert_eq. split.
      * intros [= <-]. exists t, l. by rewrite lookup_insert_eq.
      * intros (t' & l' & Et & E & ->). apply (inj value) in Et as <-.
        rewrite lookup_insert_eq in E. by injection E as <-.
    + rewrite lookup_insert_ne by done. rewrite IH. split.
      * intros (t' & l' & -> & E & ->). exists t', l'.
        rewrite lookup_insert_ne by congruence. done.
      * intros (t' & l' & -> & E & ->). exists t', l'.
        rewrite lookup_insert_ne in E by congruence. done.
Qed.

(** * The claims *)

(** ** C1: fan-out of publish *)

Lemma dispatch_returns_room m l w w' :
  NoDup l → for_each l (λ sub_queue, put sub_queue m) w = Returns tt w' →
  ∀ q, q ∈ l → full w q = false.
Proof.
  revert w. induction l as [|x l IH]; intros w Hnd Hr q Hq; [by apply elem_of_nil in Hq|].
  apply NoDup_cons in Hnd as [Hx Hnd]. rewrite for_each_cons in Hr.
  destruct (full w x) eqn:Hf; [by rewrite put_full in Hr|].
  rewrite put_room in Hr by done.
  apply elem_of_cons in Hq as [->|Hq]; [done|].
  specialize (IH _ Hnd Hr q Hq). unfold full in *. rewrite items_enqueue in IH.
  rewrite decide_False in IH; [done|]. by intros ->.
Qed.

Lemma targets_NoDup b m : registry_wf b → NoDup (targets b m).
Proof.
  intros Hwf. unfold targets. destruct (msg_type m) as [t|]; [apply Hwf|apply NoDup_nil_2].
Qed.

(** C1, the claim as stated fails: a bounded mailbox that is full makes
    publish block instead of returning.  One queue of [maxsize] 1 is
    registered for ORDER and already holds [o1]; publish of the well-formed
    [o2] does not return and [o2] is not enqueued. *)
Lemma publish_blocks_on_full_mailbox :
  let w := history [Subscribe (Member ORDER) small; Publish o1] fresh in
  registry_wf (bus w) ∧ lock (bus w) = false ∧ well_formed o2
  ∧ targets (bus w) o2 = [small]
  ∧ ∃ w', publish o2 w = Blocks (OnPut small) w' ∧ items w' small = [o1].
Proof.
  split_and!; try by vm_compute.
  - apply history_wf, initial_wf.
  - eexists. split; by vm_compute.
Qed.

(** With room in every target, publish returns after the whole fan-out. *)
Lemma publish_with_room w m :
  registry_wf (bus w) → lock (bus w) = false → well_formed m →
  (∀ q, q ∈ targets (bus w) m → full w q = false) →
  publish m w = Returns tt (deliver m (targets (bus w) m) (counted w)).
Proof.
  intros Hwf Hl Hm Hroom. pose proof (targets_NoDup _ m Hwf) as Hnd.
  rewrite publish_eq by done. unfold well_formed in Hm.
  destruct (msg_type m) as [t|] eqn:Et; [|done].
  rewrite (dispatch_returns m _ _ Hnd) by done.
  by rewrite release_deliver, (release_acquired (counted w)).
Qed.

(** C1, amended: a publish of a well-formed message on a free lock never
    raises.  It returns exactly when every mailbox registered for the type
    has room, and then it has put the message exactly once into each of
    them, in the order of the registry list, and into no other queue;
    otherwise it blocks. *)
Theorem publish_fan_out w m :
  registry_wf (bus w) → lock (bus w) = false → well_formed m →
  raises (publish m w) = false
  ∧ ((∀ q, q ∈ targets (bus w) m → full w q = false) →
     ∃ w', publish m w = Returns tt w'
       ∧ trace w' = trace w ++ ((λ q, EvPut q m) <$> targets (bus w) m)
       ∧ (∀ q, items w' q =
               items w q ++ (if decide (q ∈ targets (bus w) m) then [m] else []))
       ∧ subscribers (bus w') = subscribers (bus w))
  ∧ ((∃ q, q ∈ targets (bus w) m ∧ full w q = true) → blocks (publish m w) = true).
Proof.
  intros Hwf Hl Hm. pose proof (targets_NoDup _ m Hwf) as Hnd.
  split_and!.
  - destruct (publish_cases m w Hl) as [->|[(? & ? & ? & _ & _ & ->)|(e & He & _)]];
      [done..|]. unfold well_formed in Hm. congruence.
  - intros Hroom. exists (deliver m (targets (bus w) m) (counted w)). split_and!.
    + by apply publish_with_room.
    + by rewrite trace_deliver.
    + intros q. by rewrite items_deliver.
    + by rewrite bus_deliver.
  - intros (q & Hq & Hf). rewrite publish_eq by done. unfold well_formed in Hm.
    destruct (msg_type m) as [t|] eqn:Et; [|done].
    destruct (dispatch_cases m (targets (bus w) m) (set_lock true (counted w)))
      as [E|(pre & q' & rest & _ & _ & ->)]; [|done].
    pose proof (dispatch_returns_room _ _ _ _ Hnd E q Hq) as Hroom.
    change (full w q = false) in Hroom. congruence.
Qed.

Lemma publish_fan_out_witness :
  let w := history [Subscribe (Member ORDER) inbox; Subscribe (Member ORDER) other] fresh in
  (registry_wf (bus w) ∧ lock (bus w) = false ∧ well_formed o1)
  ∧ raises (publish o1 w) = false
  ∧ ((∀ q, q ∈ targets (bus w) o1 → full w q = false) →
     ∃ w', publish o1 w = Returns tt w'
       ∧ trace w' = trace w ++ ((λ q, EvPut q o1) <$> targets (bus w) o1)
       ∧ (∀ q, items w' q =
               items w q ++ (if decide (q ∈ targets (bus w) o1) then [o1] else []))
       ∧ subscribers (bus w') = subscribers (bus w))
  ∧ ((∃ q, q ∈ targets (bus w) o1 ∧ full w q = true) → blocks (publish o1 w) = true).
Proof.
  intros w.
  assert (registry_wf (bus w)) as Hwf by decide_closed.
  split; [by split_and!|].
  apply (publish_fan_out w o1); [exact Hwf|reflexivity|reflexivity].
Defined.

(** ** C8: the frame of the bus operations *)

Lemma publish_frame m w :
  ∃ pre, pre `prefix_of` targets (bus w) m
    ∧ trace (after (publish m w)) = trace w ++ ((λ q, EvPut q m) <$> pre)
    ∧ ∀ q, items (after (publish m w)) q =
             items w q ++ puts_into q ((λ q', EvPut q' m) <$> pre).
Proof.
  destruct (publish_after m w) as [->|(_ & pre & b & Hpre & ->)].
  - exists []. split; [apply prefix_nil|]. simpl. rewrite app_nil_r.
    split; [done|]. intros q. by rewrite app_nil_r.
  - exists pre. split; [done|]. split.
    + change (trace (set_lock b ?x)) with (trace x). by rewrite trace_deliver.
    + intros q. change (items (set_lock b ?x) q) with (items x q).
      by rewrite items_deliver_puts.
Qed.

Lemma subscribe_frame k q w :
  store (after (subscribe k q w)) = store w ∧ trace (after (subscribe k q w)) = trace w.
Proof. by destruct (subscribe_after k q w) as [->|(t & l & _ & _ & _ & _ & ->)]. Qed.

Lemma unsubscribe_frame k q w :
  store (after (unsubscribe k q w)) = store w
  ∧ trace (after (unsubscribe k q w)) = trace w.
Proof.
  by destruct (unsubscribe_after k q w) as [->|(t & l & l' & _ & _ & _ & _ & _ & ->)].
Qed.

(** A publish puts nothing into a queue outside its targets. *)
Lemma publish_spares m w q :
  q ∉ targets (bus w) m →
  items (after (publish m w)) q = items w q
  ∧ puts_into q (trace (after (publish m w))) = puts_into q (trace w).
Proof.
  intros Hout. destruct (publish_frame m w) as (pre & Hpre & Htr & Hq).
  assert (q ∉ pre) as Hq'.
  { intros Hin. apply Hout. destruct Hpre as [rest ->]. apply elem_of_app. by left. }
  rewrite Hq, Htr, puts_into_app, puts_into_notin by done. by rewrite !app_nil_r.
Qed.

(** C8: publish only appends, and only to the mailboxes registered for the
    type of the message: what it leaves in each queue is the former content
    followed by the copies put by the dispatch loop, it gets nothing from any
    queue, and a queue outside the targets keeps its content.  subscribe,
    unsubscribe and get_stats leave the store and the trace of queue calls
    as they were.  This holds for every outcome of the call. *)
Theorem bus_frame :
  (∀ m w, ∃ pre, pre `prefix_of` targets (bus w) m
     ∧ trace (after (publish m w)) = trace w ++ ((λ q, EvPut q m) <$> pre)
     ∧ ∀ q, items (after (publish m w)) q =
              items w q ++ puts_into q ((λ q', EvPut q' m) <$> pre)
          ∧ items w q `prefix_of` items (after (publish m w)) q
          ∧ gets_from q (trace (after (publish m w))) = gets_from q (trace w)
          ∧ (q ∉ targets (bus w) m → items (after (publish m w)) q = items w q))
  ∧ (∀ k q w, store (after (subscribe k q w)) = store w
            ∧ trace (after (subscribe k q w)) = trace w)
  ∧ (∀ k q w, store (after (unsubscribe k q w)) = store w
            ∧ trace (after (unsubscribe k q w)) = trace w)
  ∧ (∀ w, store (after (get_stats w)) = store w
        ∧ trace (after (get_stats w)) = trace w).
Proof.
  split_and!.
  - intros m w. destruct (publish_frame m w) as (pre & Hpre & Htr & Hq).
    exists pre. split_and!; [done..|]. intros q. split_and!.
    + apply Hq.
    + rewrite Hq. by apply prefix_app_r.
    + by rewrite Htr, gets_from_app, gets_from_puts, app_nil_r.
    + intros Hout. by apply publish_spares.
  - apply subscribe_frame.
  - apply unsubscribe_frame.
  - intros w. by rewrite get_stats_after.
Qed.

(** ** C9: what the lock covers *)

(** C9, the claim as stated fails: the dispatch loop runs inside the
    [with self.lock:] block.  With a full queue registered for ORDER, the
    publish of [o2] blocks in [put] holding the lock, and in the world it
    leaves, subscribe, unsubscribe and a publish of another type all block
    on the lock. *)
Lemma blocked_publish_holds_the_lock :
  let w := history [Subscribe (Member ORDER) small; Publish o1] fresh in
  ∃ w', publish o2 w = Blocks (OnPut small) w'
      ∧ lock (bus w') = true
      ∧ subscribe (Member PAYMENT) inbox w' = Blocks OnLock w'
      ∧ unsubscribe (Member ORDER) small w' = Blocks OnLock w'
      ∧ publish p1 w' = Blocks OnLock w'.
Proof. eexists. split_and!; vm_compute; reflexivity. Qed.

(** C9, amended: publish enqueues while holding the lock of the bus.  Whenever
    it blocks on a full mailbox, the lock is held in the world it leaves, the
    counter is already incremented, and every bus operation started there
    (subscribe, unsubscribe, publish of any type, get_stats) blocks on the
    lock. *)
Theorem publish_dispatches_under_lock m w q w' :
  publish m w = Blocks (OnPut q) w' →
  lock (bus w') = true
  ∧ q ∈ targets (bus w) m ∧ full w' q = true
  ∧ message_count (bus w') = (message_count (bus w) + 1)%Z
  ∧ (∀ k q', subscribe k q' w' = Blocks OnLock w')
  ∧ (∀ k q', unsubscribe k q' w' = Blocks OnLock w')
  ∧ (∀ m', publish m' w' = Blocks OnLock w')
  ∧ get_stats w' = Blocks OnLock w'.
Proof.
  intros Hp. destruct (lock (bus w)) eqn:Hl.
  { unfold publish in Hp. by rewrite with_lock_held in Hp. }
  destruct (publish_cases m w Hl) as [E|[(pre & q0 & rest & Et & Hf & E)|(e & _ & E)]];
    rewrite E in Hp; [done| |done].
  injection Hp as -> <-.
  assert (lock (bus (set_lock true (deliver m pre (counted w)))) = true) as Hheld by done.
  split_and!; [done| | | |intros..|].
  - rewrite Et. apply elem_of_app. right. left.
  - done.
  - simpl. by rewrite bus_deliver.
  - unfold subscribe. by rewrite with_lock_held.
  - unfold unsubscribe. by rewrite with_lock_held.
  - unfold publish. by rewrite with_lock_held.
  - unfold get_stats. by rewrite with_lock_held.
Qed.

Lemma publish_dispatches_under_lock_witness :
  let w := history [Subscribe (Member ORDER) small; Publish o1] fresh in
  let w' := set_lock true (counted w) in
  publish o2 w = Blocks (OnPut small) w'
  ∧ lock (bus w') = true
  ∧ small ∈ targets (bus w) o2 ∧ full w' small = true
  ∧ message_count (bus w') = (message_count (bus w) + 1)%Z
  ∧ (∀ k q', subscribe k q' w' = Blocks OnLock w')
  ∧ (∀ k q', unsubscribe k q' w' = Blocks OnLock w')
  ∧ (∀ m', publish m' w' = Blocks OnLock w')
  ∧ get_stats w' = Blocks OnLock w'.
Proof.
  intros w w'.
  assert (publish o2 w = Blocks (OnPut small) w') as E by (by vm_compute).
  split; [exact E|]. exact (publish_dispatches_under_lock o2 w small w' E).
Defined.

(** ** C10: subscribe, then unsubscribe *)

(** C10: when the lock is free and [q] is not in the list of the member [t],
    subscribe(t, q) appends [q] to that list and unsubscribe(t, q) then gives
    back the very world the two calls started from: the list of [t], the
    lists of the other types, the counter and the queues. *)
Theorem subscribe_unsubscribe_roundtrip w t q :
  lock (bus w) = false → is_Some (subscribers (bus w) !! t) →
  q ∉ registered (bus w) t →
  ∃ w1, subscribe (Member t) q w = Returns tt w1
      ∧ registered (bus w1) t = registered (bus w) t ++ [q]
      ∧ (∀ t', t' ≠ t → registered (bus w1) t' = registered (bus w) t')
      ∧ unsubscribe (Member t) q w1 = Returns tt w.
Proof.
  intros Hl [l El] Hq. rewrite (registered_lookup _ _ _ El) in Hq.
  exists (set_subscribers (<[t := l ++ [q]]> (subscribers (bus w))) w). split_and!.
  - rewrite subscribe_eq, El by done. by rewrite decide_False.
  - by rewrite registered_update, decide_True, (registered_lookup _ _ _ El).
  - intros t' Ht. by rewrite registered_update, decide_False.
  - rewrite unsubscribe_eq by done. cbn [set_subscribers bus subscribers].
    rewrite lookup_insert_eq.
    rewrite decide_True by (apply elem_of_app; right; left).
    rewrite list_remove_snoc by done.
    rewrite insert_insert_eq, insert_id by done.
    f_equal. destruct w as [[] ? ?]. by simpl.
Qed.

Lemma subscribe_unsubscribe_roundtrip_witness :
  (lock (bus fresh) = false ∧ is_Some (subscribers (bus fresh) !! ORDER)
   ∧ inbox ∉ registered (bus fresh) ORDER)
  ∧ ∃ w1, subscribe (Member ORDER) inbox fresh = Returns tt w1
      ∧ registered (bus w1) ORDER = registered (bus fresh) ORDER ++ [inbox]
      ∧ (∀ t', t' ≠ ORDER → registered (bus w1) t' = registered (bus fresh) t')
      ∧ unsubscribe (Member ORDER) inbox w1 = Returns tt fresh.
Proof.
  assert (is_Some (subscribers (bus fresh) !! ORDER)) as Hk by decide_closed.
  assert (inbox ∉ registered (bus fresh) ORDER) as Hq by decide_closed.
  split; [by split_and!|].
  exact (subscribe_unsubscribe_roundtrip fresh ORDER inbox eq_refl Hk Hq).
Defined.

(** ** C3: get_stats *)

(** C3, the claim as stated fails: get_stats returns the subscriber counts
    only.  A new bus and the same bus after one publish have different
    [message_count]s and get_stats returns the same dict for both, so the
    counter is not part of what it returns. *)
Lemma get_stats_omits_message_count :
  let w := after (publish o1 fresh) in
  message_count (bus fresh) ≠ message_count (bus w)
  ∧ ∃ stats, get_stats fresh = Returns stats fresh ∧ get_stats w = Returns stats w.
Proof.
  intros w. split; [by vm_compute|].
  assert (lock (bus w) = false) as Hl by (vm_compute; reflexivity).
  eexists. split; [by apply get_stats_eq|].
  rewrite (get_stats_eq w Hl). unfold w. by rewrite subscribers_publish.
Qed.

(** C3, amended: on a free lock get_stats returns, leaving the world as it
    was, a dict with one entry per message type of the registry, keyed by the
    label of the type, whose value is the length of the subscriber list of
    that type in the world of the call; it has no other entry, and it is
    determined by the registry alone (the publish counter is not in it). *)
Theorem get_stats_counts w :
  lock (bus w) = false →
  ∃ stats, get_stats w = Returns stats w
    ∧ (∀ t l, subscribers (bus w) !! t = Some l →
              stats !! value t = Some (Z.of_nat (length l)))
    ∧ (∀ s n, stats !! s = Some n →
              ∃ t l, s = value t ∧ subscribers (bus w) !! t = Some l
                     ∧ n = Z.of_nat (length l))
    ∧ (∀ w2, lock (bus w2) = false → subscribers (bus w2) = subscribers (bus w) →
             get_stats w2 = Returns stats w2).
Proof.
  intros Hl. eexists. split; [by apply get_stats_eq|]. split_and!.
  - intros t l E. apply stats_lookup. by exists t, l.
  - intros s n E. by apply stats_lookup in E.
  - intros w2 Hl2 E. rewrite get_stats_eq by done. by rewrite E.
Qed.

Lemma get_stats_counts_witness :
  let w := history [Subscribe (Member ORDER) inbox; Subscribe (Member ORDER) other;
                    Subscribe (Member PAYMENT) inbox; Publish o1] fresh in
  lock (bus w) = false
  ∧ ∃ stats, get_stats w = Returns stats w
    ∧ (∀ t l, subscribers (bus w) !! t = Some l →
              stats !! value t = Some (Z.of_nat (length l)))
    ∧ (∀ s n, stats !! s = Some n →
              ∃ t l, s = value t ∧ subscribers (bus w) !! t = Some l
                     ∧ n = Z.of_nat (length l))
    ∧ (∀ w2, lock (bus w2) = false → subscribers (bus w2) = subscribers (bus w) →
             get_stats w2 = Returns stats w2).
Proof. intros w. split; [reflexivity|]. apply (get_stats_counts w). reflexivity. Defined.

(** ** C4: an object that is not a MessageType *)

(** C4, the claim as stated fails for publish: the lookup is
    [self.subscribers.get(message.msg_type, [])], after the counter was
    incremented.  A message whose type is a hashable object with a [value]
    attribute, but not a member, is published without any error: the call
    returns, nothing is delivered, and [message_count] went from 0 to 1. *)
Lemma publish_foreign_type_is_silent :
  is_member (msg_type stray) = false
  ∧ message_count (bus fresh) = 0%Z
  ∧ ∃ w', publish stray fresh = Returns tt w'
      ∧ message_count (bus w') = 1%Z ∧ trace w' = [].
Proof. split_and!; try done. eexists. split_and!; by vm_compute. Qed.

(** C4, amended: on a free lock, subscribe and unsubscribe given an object
    that is not a member raise ([KeyError], or [TypeError] when the object
    cannot be hashed) and leave the world as it was.  publish of a message
    carrying such an object puts nothing into any queue and leaves the
    registry alone, but increments [message_count]; it returns normally when
    the object is hashable and has a [value] attribute, and raises
    otherwise. *)
Theorem foreign_message_type k q m w :
  is_member k = false → lock (bus w) = false → msg_type m = k →
  (∃ e, subscribe k q w = Raises e w ∧ (e = KeyError ∨ e = TypeError))
  ∧ (∃ e, unsubscribe k q w = Raises e w ∧ (e = KeyError ∨ e = TypeError))
  ∧ after (publish m w) = counted w
  ∧ (returns (publish m w) = true ↔ ∃ v, k = Foreign true (Some v))
  ∧ (raises (publish m w) = true ↔ ¬ ∃ v, k = Foreign true (Some v)).
Proof.
  intros Hk Hl Hm. destruct k as [t|h v]; [done|]. split_and!.
  - rewrite subscribe_eq by done. destruct h; eauto.
  - rewrite unsubscribe_eq by done. destruct h; eauto.
  - rewrite publish_eq by done. unfold targets. rewrite Hm.
    destruct h, v; try done.
    change (release (set_lock true (counted w)) = counted w). by apply release_acquired.
  - rewrite publish_eq by done. unfold targets. rewrite Hm.
    destruct h, v as [v|]; simpl; split; try done; eauto; by intros [? [=]].
  - rewrite publish_eq by done. unfold targets. rewrite Hm.
    destruct h, v as [v|]; simpl; split; try done; try (by intros _ [? [=]]).
    intros H. destruct H. eauto.
Qed.

Lemma foreign_message_type_witness :
  (is_member alien = false ∧ lock (bus fresh) = false ∧ msg_type stray = alien)
  ∧ (∃ e, subscribe alien inbox fresh = Raises e fresh ∧ (e = KeyError ∨ e = TypeError))
  ∧ (∃ e, unsubscribe alien inbox fresh = Raises e fresh ∧ (e = KeyError ∨ e = TypeError))
  ∧ after (publish stray fresh) = counted fresh
  ∧ (returns (publish stray fresh) = true ↔ ∃ v, alien = Foreign true (Some v))
  ∧ (raises (publish stray fresh) = true ↔ ¬ ∃ v, alien = Foreign true (Some v)).
Proof.
  split; [by split_and!|].
  exact (foreign_message_type alien inbox stray fresh eq_refl eq_refl eq_refl).
Defined.

(** ** C5: the publish counter *)

Lemma exec_message_count c w w' :
  exec c w = Returns tt w' →
  message_count (bus w') =
    (message_count (bus w) + if is_publish c then 1 else 0)%Z.
Proof.
  intros He. assert (after (exec c w) = w') as <- by by rewrite He.
  destruct c as [k q|k q|m| |q]; simpl in *.
  - destruct (subscribe_after k q w) as [->|(t & l & _ & _ & _ & _ & ->)]; simpl; lia.
  - destruct (unsubscribe_after k q w) as [->|(t & l & l' & _ & _ & _ & _ & _ & ->)];
      simpl; lia.
  - destruct (lock (bus w)) eqn:Hl.
    { unfold publish in He. by rewrite with_lock_held in He. }
    destruct (publish_cases m w Hl) as [E|[(? & ? & ? & _ & _ & E)|(e & _ & E)]];
      rewrite E in He |- *; [|done..].
    simpl. by rewrite bus_deliver.
  - rewrite after_then_ret, get_stats_after. lia.
  - rewrite after_then_ret, bus_consume. lia.
Qed.

Lemma run_cons c cs w :
  run (c :: cs) w =
    match exec c w with
    | Returns _ w' => run cs w'
    | Raises e w' => Raises e w'
    | Blocks on w' => Blocks on w'
    end.
Proof. done. Qed.

Lemma run_cons_returns c cs w w' :
  run (c :: cs) w = Returns tt w' →
  ∃ w1, exec c w = Returns tt w1 ∧ run cs w1 = Returns tt w'.
Proof.
  rewrite run_cons. destruct (exec c w) as [[] w1| |] eqn:E; [|done..]. eauto.
Qed.

Lemma count_publish_cons c cs :
  count_publish (c :: cs) = ((if is_publish c then 1 else 0) + count_publish cs)%nat.
Proof.
  unfold count_publish. destruct (is_publish c) eqn:E.
  - by rewrite filter_cons_True.
  - rewrite filter_cons_False; [done|]. by rewrite E.
Qed.

Lemma run_message_count cs w w' :
  run cs w = Returns tt w' →
  message_count (bus w') = (message_count (bus w) + Z.of_nat (count_publish cs))%Z.
Proof.
  revert w. induction cs as [|c cs IH]; intros w Hr.
  - injection Hr as <-. unfold count_publish. simpl. lia.
  - apply run_cons_returns in Hr as (w1 & Hc & Hr).
    rewrite (IH _ Hr), (exec_message_count _ _ _ Hc), count_publish_cons.
    destruct (is_publish c); lia.
Qed.

(** C5: a publish that returns has incremented [message_count] by exactly
    one; subscribe, unsubscribe and get_stats leave it as it was, whatever
    their outcome; hence after a sequence of calls on a new bus that all
    returned, [message_count] is the number of publish calls among them. *)
Theorem message_count_counts_publishes :
  (∀ m w w', publish m w = Returns tt w' →
     message_count (bus w') = (message_count (bus w) + 1)%Z)
  ∧ (∀ k q w, message_count (bus (after (subscribe k q w))) = message_count (bus w))
  ∧ (∀ k q w, message_count (bus (after (unsubscribe k q w))) = message_count (bus w))
  ∧ (∀ w, message_count (bus (after (get_stats w))) = message_count (bus w))
  ∧ (∀ nm cs w, run cs (initial_world nm) = Returns tt w →
       message_count (bus w) = Z.of_nat (count_publish cs)).
Proof.
  split_and!.
  - intros m w w' E. by rewrite (exec_message_count (Publish m) w w').
  - intros k q w.
    by destruct (subscribe_after k q w) as [->|(t & l & _ & _ & _ & _ & ->)].
  - intros k q w.
    by destruct (unsubscribe_after k q w) as [->|(t & l & l' & _ & _ & _ & _ & _ & ->)].
  - intros w. by rewrite get_stats_after.
  - intros nm cs w Hr. by rewrite (run_message_count _ _ _ Hr).
Qed.

Lemma message_count_counts_publishes_witness :
  let cs := [Subscribe (Member ORDER) inbox; Publish o1; Publish p1; GetStats;
             Consume inbox; Unsubscribe (Member ORDER) inbox; Publish o2] in
  ∃ w, run cs fresh = Returns tt w ∧ message_count (bus w) = 3%Z.
Proof.
  intros cs. eexists. split; [by vm_compute|].
  destruct message_count_counts_publishes as (_ & _ & _ & _ & H).
  apply (H default_name cs). by vm_compute.
Defined.

(** ** C6: the registry invariant *)

Lemma publish_returns m w w' :
  publish m w = Returns tt w' →
  lock (bus w) = false ∧ w' = deliver m (targets (bus w) m) (counted w).
Proof.
  intros Hp. destruct (lock (bus w)) eqn:Hl.
  { unfold publish in Hp. by rewrite with_lock_held in Hp. }
  split; [done|].
  destruct (publish_cases m w Hl) as [E|[(? & ? & ? & _ & _ & E)|(e & _ & E)]];
    rewrite E in Hp; [|done..].
  by injection Hp.
Qed.

Lemma subscribe_returns t q w w1 :
  subscribe (Member t) q w = Returns tt w1 →
  q ∈ registered (bus w1) t ∧ store w1 = store w ∧ trace w1 = trace w.
Proof.
  intros Hs. destruct (lock (bus w)) eqn:Hl.
  { unfold subscribe in Hs. by rewrite with_lock_held in Hs. }
  rewrite subscribe_eq in Hs by done.
  destruct (subscribers (bus w) !! t) as [l|] eqn:E; [|done].
  destruct (decide (q ∈ l)); injection Hs as <-.
  - by rewrite (registered_lookup _ _ _ E).
  - rewrite registered_update, decide_True by done.
    split; [|done]. apply elem_of_app. right. left.
Qed.

(** C6: from a new bus, every sequence of calls, whatever their outcomes,
    leaves a registry in which each message type has its list and no list
    holds a queue twice, and each call preserves this.  Subscribing a queue
    that is already in the list of the type returns without changing
    anything, so after two subscriptions of [q] to [t] a publish of type [t]
    that returns has put exactly one copy into [q].  No call other than
    [unsubscribe(t, q)] takes [q] out of the list of [t]. *)
Theorem registry_invariant :
  (∀ nm cs, registry_wf (bus (history cs (initial_world nm))))
  ∧ (∀ c w, registry_wf (bus w) → registry_wf (bus (after (exec c w))))
  ∧ (∀ w t q, lock (bus w) = false → q ∈ registered (bus w) t →
       subscribe (Member t) q w = Returns tt w)
  ∧ (∀ w t q m w1 w2 w3,
       registry_wf (bus w) → of_type t m →
       subscribe (Member t) q w = Returns tt w1 →
       subscribe (Member t) q w1 = Returns tt w2 →
       publish m w2 = Returns tt w3 →
       w2 = w1
       ∧ items w3 q = items w q ++ [m]
       ∧ ∃ tr, trace w3 = trace w ++ tr ∧ puts_into q tr = [m])
  ∧ (∀ c w t q, q ∈ registered (bus w) t → c ≠ Unsubscribe (Member t) q →
       q ∈ registered (bus (after (exec c w))) t).
Proof.
  split_and!.
  - intros nm cs. apply history_wf, initial_wf.
  - intros c w. apply exec_wf.
  - intros w t q Hl Hq. apply registered_elem in Hq as (l & El & Hq).
    rewrite subscribe_eq, El by done. by rewrite decide_True.
  - intros w t q m w1 w2 w3 Hwf Hm Hs1 Hs2 Hp.
    pose proof (exec_wf (Subscribe (Member t) q) w Hwf) as Hwf1.
    simpl in Hwf1. rewrite Hs1 in Hwf1.
    pose proof (exec_wf (Subscribe (Member t) q) w1 Hwf1) as Hwf2.
    simpl in Hwf2. rewrite Hs2 in Hwf2. cbn [after] in *.
    destruct (subscribe_returns _ _ _ _ Hs1) as (Hq1 & Hst1 & Htr1).
    assert (w2 = w1) as ->.
    { apply registered_elem in Hq1 as (l & El & Hq1).
      destruct (lock (bus w1)) eqn:Hl.
      { unfold subscribe in Hs2. by rewrite with_lock_held in Hs2. }
      rewrite subscribe_eq, El in Hs2 by done. rewrite decide_True in Hs2 by done.
      by injection Hs2. }
    apply publish_returns in Hp as [_ ->].
    assert (targets (bus w1) m = registered (bus w1) t) as Ht
      by (unfold targets; by rewrite Hm).
    destruct (Hwf1 t) as [_ Hnd].
    split; [done|]. split.
    + rewrite items_deliver by (rewrite Ht; done).
      rewrite decide_True by (by rewrite Ht). unfold items, counted; simpl. by rewrite Hst1.
    + exists ((λ q', EvPut q' m) <$> targets (bus w1) m).
      rewrite trace_deliver. simpl. rewrite Htr1. split; [done|].
      rewrite Ht. by apply puts_into_NoDup.
  - intros c w t q. apply exec_keeps_registered.
Qed.

Lemma registry_invariant_witness :
  let w1 := after (subscribe (Member ORDER) inbox fresh) in
  let w3 := after (publish o1 w1) in
  (subscribe (Member ORDER) inbox fresh = Returns tt w1
   ∧ subscribe (Member ORDER) inbox w1 = Returns tt w1
   ∧ publish o1 w1 = Returns tt w3)
  ∧ w1 = w1
  ∧ items w3 inbox = items fresh inbox ++ [o1]
  ∧ ∃ tr, trace w3 = trace fresh ++ tr ∧ puts_into inbox tr = [o1].
Proof.
  intros w1 w3.
  assert (subscribe (Member ORDER) inbox fresh = Returns tt w1) as H1 by (by vm_compute).
  assert (subscribe (Member ORDER) inbox w1 = Returns tt w1) as H2 by (by vm_compute).
  assert (publish o1 w1 = Returns tt w3) as H3 by (by vm_compute).
  split; [by split_and!|].
  destruct registry_invariant as (_ & _ & _ & H & _).
  apply (H fresh ORDER inbox o1 w1 w1 w3); [decide_closed|reflexivity|done..].
Defined.

(** ** C7: unsubscribe *)

Lemma history_keeps_unregistered cs w t q :
  registry_wf (bus w) → q ∉ registered (bus w) t → Subscribe (Member t) q ∉ cs →
  q ∉ registered (bus (history cs w)) t.
Proof.
  revert w. induction cs as [|c cs IH]; intros w Hwf Hq Hcs; [done|].
  apply not_elem_of_cons in Hcs as [Hc Hcs]. rewrite history_cons.
  apply IH; [by apply exec_wf| |done].
  apply exec_keeps_unregistered; [done..|]. congruence.
Qed.

(** C7: on a registry satisfying the invariant and a free lock,
    unsubscribe(t, q) returns; the list of [t] is the former one without
    [q], the others in their order, and the lists of the other types are
    untouched; when [q] was not in the list the world is unchanged and no
    error is raised.  From then on, as long as [q] is not subscribed to [t]
    again, no publish of a message of type [t] puts anything into [q]. *)
Theorem unsubscribe_effect w t q :
  registry_wf (bus w) → lock (bus w) = false →
  ∃ w1, unsubscribe (Member t) q w = Returns tt w1
    ∧ registered (bus w1) t = filter (λ y, y ≠ q) (registered (bus w) t)
    ∧ (q ∉ registered (bus w1) t)
    ∧ (∀ t', t' ≠ t → registered (bus w1) t' = registered (bus w) t')
    ∧ (q ∉ registered (bus w) t → w1 = w)
    ∧ (∀ cs m, Subscribe (Member t) q ∉ cs → of_type t m →
         items (after (publish m (history cs w1))) q = items (history cs w1) q
         ∧ puts_into q (trace (after (publish m (history cs w1))))
           = puts_into q (trace (history cs w1))).
Proof.
  intros Hwf Hl. destruct (Hwf t) as [[l El] Hnd].
  rewrite (registered_lookup _ _ _ El) in Hnd |- *.
  assert (∃ w1, unsubscribe (Member t) q w = Returns tt w1
    ∧ registered (bus w1) t = filter (λ y, y ≠ q) l
    ∧ (∀ t', t' ≠ t → registered (bus w1) t' = registered (bus w) t')
    ∧ (q ∉ l → w1 = w)) as (w1 & Hu & Hreg & Hother & Hnoop).
  { rewrite unsubscribe_eq, El by done. destruct (decide (q ∈ l)) as [Hin|Hout].
    - destruct (list_remove_elem q l Hin) as [l' Er]. rewrite Er.
      eexists. split; [done|]. split_and!.
      + by rewrite registered_update, decide_True, (list_remove_filter _ _ _ Hnd Er).
      + intros t' Ht. by rewrite registered_update, decide_False.
      + done.
    - exists w. split; [done|]. split_and!; [|done..].
      rewrite (registered_lookup _ _ _ El). symmetry. apply filter_all.
      intros y Hy ->. done. }
  assert (q ∉ registered (bus w1) t) as Hgone.
  { rewrite Hreg, list_elem_of_filter. by intros [? _]. }
  exists w1. split_and!; try done.
  intros cs m Hcs Hm.
  assert (registry_wf (bus w1)) as Hwf1.
  { pose proof (exec_wf (Unsubscribe (Member t) q) w Hwf) as H.
    simpl in H. by rewrite Hu in H. }
  pose proof (history_keeps_unregistered cs w1 t q Hwf1 Hgone Hcs) as Hout.
  set (w2 := history cs w1) in *.
  assert (q ∉ targets (bus w2) m) as Htg by (unfold targets; by rewrite Hm).
  by apply publish_spares.
Qed.

Lemma unsubscribe_effect_witness :
  let w := history [Subscribe (Member ORDER) inbox; Subscribe (Member ORDER) other;
                    Publish o1] fresh in
  (registry_wf (bus w) ∧ lock (bus w) = false)
  ∧ ∃ w1, unsubscribe (Member ORDER) inbox w = Returns tt w1
    ∧ registered (bus w1) ORDER = filter (λ y, y ≠ inbox) (registered (bus w) ORDER)
    ∧ (inbox ∉ registered (bus w1) ORDER)
    ∧ (∀ t', t' ≠ ORDER → registered (bus w1) t' = registered (bus w) t')
    ∧ (inbox ∉ registered (bus w) ORDER → w1 = w)
    ∧ (∀ cs m, Subscribe (Member ORDER) inbox ∉ cs → of_type ORDER m →
         items (after (publish m (history cs w1))) inbox = items (history cs w1) inbox
         ∧ puts_into inbox (trace (after (publish m (history cs w1))))
           = puts_into inbox (trace (history cs w1))).
Proof.
  intros w.
  assert (registry_wf (bus w)) as Hwf by decide_closed.
  split; [by split|].
  exact (unsubscribe_effect w ORDER inbox Hwf eq_refl).
Defined.

(** ** C2: order of delivery *)

Section delivery.
(** A message type and a queue registered for it. *)
Context (t : MessageType) (q : Queue).

Lemma published_cons c cs :
  published t (c :: cs) = published t [c] ++ published t cs.
Proof.
  unfold published. simpl. destruct c as [| |m| |]; try done.
  by destruct (decide (of_type t m)).
Qed.

Lemma filter_puts_other_type m (l : list Queue) :
  ¬ of_type t m → filter (of_type t) (puts_into q ((λ q', EvPut q' m) <$> l)) = [].
Proof.
  intros Hm. induction l as [|x l IH]; [done|].
  rewrite fmap_cons. unfold puts_into in *. cbn [omap list_omap].
  destruct (decide (x = q)); [|done]. by rewrite filter_cons_False.
Qed.

(** What one publish puts into [q], of the type [t]. *)
Lemma publish_delivery m w :
  registry_wf (bus w) → q ∈ registered (bus w) t →
  ∃ pre, trace (after (publish m w)) = trace w ++ ((λ q', EvPut q' m) <$> pre)
    ∧ (∀ q', items (after (publish m w)) q' =
               items w q' ++ puts_into q' ((λ q', EvPut q' m) <$> pre))
    ∧ filter (of_type t) (puts_into q ((λ q', EvPut q' m) <$> pre))
        `prefix_of` published t [Publish m]
    ∧ (returns (publish m w) = true →
       filter (of_type t) (puts_into q ((λ q', EvPut q' m) <$> pre))
       = published t [Publish m]).
Proof.
  intros Hwf Hq. destruct (publish_frame m w) as (pre & Hpre & Htr & Hit).
  exists pre. split; [done|]. split; [done|].
  pose proof (targets_NoDup _ m Hwf) as Hnd.
  unfold published. simpl. destruct (decide (of_type t m)) as [Hm|Hm].
  - assert (targets (bus w) m = registered (bus w) t) as Ht
      by (unfold targets; by rewrite Hm).
    split.
    + destruct Hpre as [rest E]. rewrite E in Hnd.
      apply NoDup_app in Hnd as (Hnd & _). destruct (decide (q ∈ pre)).
      * rewrite puts_into_NoDup by done. by rewrite filter_cons_True.
      * rewrite puts_into_notin by done. apply prefix_nil.
    + intros Hr. destruct (publish m w) as [[] w1| |] eqn:Hp; [|done..].
      apply publish_returns in Hp as [_ ->]. cbn [after] in Htr.
      rewrite trace_deliver in Htr. apply app_inv_head in Htr as <-.
      rewrite Ht in Hnd |- *. rewrite puts_into_NoDup by done.
      by rewrite filter_cons_True.
  - rewrite filter_puts_other_type by done. split; [apply prefix_nil|done].
Qed.

(** What one call contributes, whatever its outcome: the messages of type
    [t] it puts into [q] never run ahead of those it publishes, and are
    those when the call returns; and each queue is a FIFO over the call. *)
Lemma exec_delivery c w :
  registry_wf (bus w) → q ∈ registered (bus w) t →
  ∃ tr, trace (after (exec c w)) = trace w ++ tr
    ∧ filter (of_type t) (puts_into q tr) `prefix_of` published t [c]
    ∧ (returns (exec c w) = true →
       filter (of_type t) (puts_into q tr) = published t [c])
    ∧ ∀ q', items w q' ++ puts_into q' tr
            = gets_from q' tr ++ items (after (exec c w)) q'.
Proof.
  intros Hwf Hq. destruct c as [k q0|k q0|m| |q0]; simpl.
  - exists []. destruct (subscribe_frame k q0 w) as [Hst ->].
    rewrite app_nil_r. split_and!; [done..|].
    intros q'. unfold items. rewrite Hst. simpl. by rewrite app_nil_r.
  - exists []. destruct (unsubscribe_frame k q0 w) as [Hst ->].
    rewrite app_nil_r. split_and!; [done..|].
    intros q'. unfold items. rewrite Hst. simpl. by rewrite app_nil_r.
  - destruct (publish_delivery m w Hwf Hq) as (pre & Htr & Hit & Hpre & Hall).
    exists ((λ q', EvPut q' m) <$> pre). split_and!; [done..|].
    intros q'. by rewrite gets_from_puts, Hit.
  - rewrite after_then_ret, get_stats_after.
    exists []. rewrite app_nil_r. split_and!; [done..|].
    intros q'. simpl. by rewrite app_nil_r.
  - rewrite after_then_ret.
    destruct (consume_cases q0 w) as [[_ ->]|(m & rest & Ei & ->)]; cbn [after].
    + exists []. rewrite app_nil_r. split_and!; [done..|].
      intros q'. simpl. by rewrite app_nil_r.
    + exists [EvGet q0 m]. split_and!; [done..|].
      intros q'. unfold gets_from, puts_into, items. simpl. rewrite app_nil_r.
      destruct (decide (q0 = q')) as [->|Hne].
      * rewrite lookup_insert_eq. simpl. exact Ei.
      * by rewrite lookup_insert_ne.
Qed.

(** C2: let [q] be registered for the type [t] in a world whose registry
    satisfies the invariant, and take any sequence of calls that never
    unsubscribes [q] from [t].  The messages of type [t] put into [q] along
    the sequence follow the order of the publish calls of type [t]: they
    are a prefix of the published ones whatever the outcome, and all of
    them when the sequence runs to its end.  And [q] is a FIFO: what it
    held, followed by what was put into it, is what was got from it
    followed by what it still holds. *)
Theorem delivery_order cs w :
  registry_wf (bus w) → q ∈ registered (bus w) t →
  Unsubscribe (Member t) q ∉ cs →
  ∃ tr, trace (after (run cs w)) = trace w ++ tr
    ∧ filter (of_type t) (puts_into q tr) `prefix_of` published t cs
    ∧ (returns (run cs w) = true →
       filter (of_type t) (puts_into q tr) = published t cs)
    ∧ items w q ++ puts_into q tr = gets_from q tr ++ items (after (run cs w)) q.
Proof.
  revert w. induction cs as [|c cs IH]; intros w Hwf Hq Hcs.
  - exists []. simpl. by rewrite !app_nil_r.
  - apply not_elem_of_cons in Hcs as [Hc Hcs].
    destruct (exec_delivery c w Hwf Hq) as (tr1 & Htr1 & Hpre1 & Hord1 & Hfifo1).
    rewrite run_cons, (published_cons c cs).
    destruct (exec c w) as [[] w1|e w1|on w1] eqn:He; cbn [after] in *.
    + assert (registry_wf (bus w1)) as Hwf1.
      { pose proof (exec_wf c w Hwf) as H. by rewrite He in H. }
      assert (q ∈ registered (bus w1) t) as Hq1.
      { pose proof (exec_keeps_registered c w t q Hq) as H. rewrite He in H.
        apply H. congruence. }
      destruct (IH w1 Hwf1 Hq1 Hcs) as (tr2 & Htr2 & Hpre2 & Hord2 & Hfifo2).
      specialize (Hord1 eq_refl).
      exists (tr1 ++ tr2). split_and!.
      * by rewrite Htr2, Htr1, app_assoc.
      * rewrite puts_into_app, filter_app, Hord1. by apply prefix_app.
      * intros Hr. by rewrite puts_into_app, filter_app, Hord1, Hord2.
      * rewrite puts_into_app, gets_from_app, app_assoc, Hfifo1.
        by rewrite <-!app_assoc, Hfifo2.
    + exists tr1. split_and!; [done| |done|done]. by apply prefix_app_r.
    + exists tr1. split_and!; [done| |done|done]. by apply prefix_app_r.
Qed.
End delivery.

(** A concrete run: two consumers' queues on ORDER, one of them also on
    PAYMENT, three ORDER publishes with a PAYMENT publish and two gets
    interleaved. *)
Lemma delivery_order_witness :
  let w := history [Subscribe (Member ORDER) inbox; Subscribe (Member ORDER) other;
                    Subscribe (Member PAYMENT) inbox] fresh in
  let cs := [Publish o1; Publish p1; Consume inbox; Publish o2; Consume inbox;
             Publish o3] in
  (registry_wf (bus w) ∧ inbox ∈ registered (bus w) ORDER
   ∧ (Unsubscribe (Member ORDER) inbox ∉ cs))
  ∧ returns (run cs w) = true
  ∧ published ORDER cs = [o1; o2; o3]
  ∧ ∃ tr, trace (after (run cs w)) = trace w ++ tr
      ∧ filter (of_type ORDER) (puts_into inbox tr) `prefix_of` published ORDER cs
      ∧ (returns (run cs w) = true →
         filter (of_type ORDER) (puts_into inbox tr) = published ORDER cs)
      ∧ items w inbox ++ puts_into inbox tr
        = gets_from inbox tr ++ items (after (run cs w)) inbox.
Proof.
  intros w cs.
  assert (registry_wf (bus w)) as Hwf by decide_closed.
  assert (inbox ∈ registered (bus w) ORDER) as Hq by decide_closed.
  assert (Unsubscribe (Member ORDER) inbox ∉ cs) as Hcs by decide_closed.
  split; [by split_and!|]. split; [by vm_compute|]. split; [by vm_compute|].
  exact (delivery_order ORDER inbox cs w Hwf Hq Hcs).
Defined.

(** The run of C2 does return when the queues have room: with unbounded
    queues in every list, a free lock and well-formed messages, any sequence
    of publishes runs to its end. *)
Lemma run_publish_returns ms w :
  registry_wf (bus w) → lock (bus w) = false →
  (∀ t q, q ∈ registered (bus w) t → (maxsize q ≤ 0)%Z) →
  Forall well_formed ms →
  ∃ w', run (Publish <$> ms) w = Returns tt w'.
Proof.
  revert w. induction ms as [|m ms IH]; intros w Hwf Hl Hunb Hms; [by eexists|].
  apply Forall_cons in Hms as [Hm Hms].
  assert (publish m w = Returns tt (deliver m (targets (bus w) m) (counted w))) as Hp.
  { apply publish_with_room; [done..|]. intros q Hq. unfold well_formed in Hm. unfold targets in Hq.
    destruct (msg_type m) as [t|]; [|done].
    specialize (Hunb t q Hq). unfold full.
    rewrite bool_decide_eq_false_2; [done|lia]. }
  rewrite fmap_cons, run_cons. simpl. rewrite Hp.
  apply IH; [| | |done].
  - eapply registry_wf_same; [|done]. by rewrite bus_deliver.
  - by rewrite bus_deliver.
  - intros t q. unfold registered. rewrite bus_deliver. apply Hunb.
Qed.

(** * Further properties of the bus *)

(** ** Sequences of publishes *)

Lemma subscribers_publish_done m w :
  subscribers (bus (publish_done m w)) = subscribers (bus w).
Proof. unfold publish_done. by rewrite bus_deliver. Qed.

Lemma lock_publish_done m w : lock (bus (publish_done m w)) = lock (bus w).
Proof. unfold publish_done. by rewrite bus_deliver. Qed.

Lemma message_count_publish_done m w :
  message_count (bus (publish_done m w)) = (message_count (bus w) + 1)%Z.
Proof. unfold publish_done. by rewrite bus_deliver. Qed.


Lemma targets_same b b' m : subscribers b' = subscribers b → targets b' m = targets b m.
Proof. intros E. unfold targets, registered. by rewrite E. Qed.

Lemma items_publish_done m w q :
  registry_wf (bus w) →
  items (publish_done m w) q =
    items w q ++ (if decide (q ∈ targets (bus w) m) then [m] else []).
Proof.
  intros Hwf. unfold publish_done. rewrite items_deliver by by apply targets_NoDup.
  done.
Qed.

Lemma trace_publish_done m w :
  trace (publish_done m w) = trace w ++ ((λ q, EvPut q m) <$> targets (bus w) m).
Proof. unfold publish_done. by rewrite trace_deliver. Qed.

Lemma registry_wf_publish_done m w :
  registry_wf (bus w) → registry_wf (bus (publish_done m w)).
Proof. apply registry_wf_same, subscribers_publish_done. Qed.

Lemma publish_returns_done m w w' :
  publish m w = Returns tt w' → lock (bus w) = false ∧ w' = publish_done m w.
Proof. apply publish_returns. Qed.

Lemma published_world_cons m ms w :
  published_world (m :: ms) w = published_world ms (publish_done m w).
Proof. done. Qed.

Lemma subscribers_published_world ms w :
  subscribers (bus (published_world ms w)) = subscribers (bus w).
Proof.
  revert w. induction ms as [|m ms IH]; intros w; [done|].
  by rewrite published_world_cons, IH, subscribers_publish_done.
Qed.

Lemma lock_published_world ms w : lock (bus (published_world ms w)) = lock (bus w).
Proof.
  revert w. induction ms as [|m ms IH]; intros w; [done|].
  by rewrite published_world_cons, IH, lock_publish_done.
Qed.

Lemma message_count_published_world ms w :
  message_count (bus (published_world ms w)) =
    (message_count (bus w) + Z.of_nat (length ms))%Z.
Proof.
  revert w. induction ms as [|m ms IH]; intros w; [simpl; lia|].
  rewrite published_world_cons, IH, message_count_publish_done. simpl. lia.
Qed.


(** A queue holds, after a sequence of publishes, what it held followed by
    the messages it was a target of, in publish order. *)
Lemma items_published_world ms w q :
  registry_wf (bus w) →
  items (published_world ms w) q =
    items w q ++ filter (λ m, q ∈ targets (bus w) m) ms.
Proof.
  revert w. induction ms as [|m ms IH]; intros w Hwf.
  - simpl. by rewrite app_nil_r.
  - rewrite published_world_cons, IH by by apply registry_wf_publish_done.
    rewrite items_publish_done by done. rewrite <-app_assoc. f_equal.
    rewrite (list_filter_iff _ (λ m, q ∈ targets (bus w) m)).
    + destruct (decide (q ∈ targets (bus w) m)).
      * by rewrite filter_cons_True.
      * by rewrite filter_cons_False.
    + intros m'. by rewrite (targets_same _ _ _ (subscribers_publish_done m w)).
Qed.

Lemma puts_into_targets q m (l : list Queue) :
  NoDup l →
  puts_into q ((λ q', EvPut q' m) <$> l) = if decide (q ∈ l) then [m] else [].
Proof.
  intros Hnd. destruct (decide (q ∈ l)).
  - by apply puts_into_NoDup.
  - by apply puts_into_notin.
Qed.

Lemma trace_published_world ms w q :
  registry_wf (bus w) →
  ∃ tr, trace (published_world ms w) = trace w ++ tr
    ∧ puts_into q tr = filter (λ m, q ∈ targets (bus w) m) ms
    ∧ gets_from q tr = [].
Proof.
  revert w. induction ms as [|m ms IH]; intros w Hwf.
  - exists []. simpl. by rewrite app_nil_r.
  - rewrite published_world_cons.
    destruct (IH (publish_done m w)) as (tr & Htr & Hp & Hg);
      [by apply registry_wf_publish_done|].
    exists (((λ q', EvPut q' m) <$> targets (bus w) m) ++ tr). split_and!.
    + by rewrite Htr, trace_publish_done, app_assoc.
    + rewrite puts_into_app, Hp, puts_into_targets by by apply targets_NoDup.
      rewrite (list_filter_iff _ (λ m, q ∈ targets (bus w) m)).
      * destruct (decide (q ∈ targets (bus w) m)).
        -- by rewrite filter_cons_True.
        -- by rewrite filter_cons_False.
      * intros m'. by rewrite (targets_same _ _ _ (subscribers_publish_done m w)).
    + by rewrite gets_from_app, gets_from_puts, Hg.
Qed.

Lemma for_each_fmap {A B} (g : A → B) (l : list A) (body : B → M unit) w :
  for_each (g <$> l) body w = for_each l (λ x, body (g x)) w.
Proof.
  revert w. induction l as [|x l IH]; intros w; [done|].
  rewrite fmap_cons, !for_each_cons. destruct (body (g x) w); [apply IH|done..].
Qed.

(** A loop of publishes that returns leaves the world of its publishes. *)
Lemma for_each_publish_returns {A} (f : A → Message) (l : list A) w w' :
  for_each l (λ x, publish (f x)) w = Returns tt w' →
  lock (bus w) = false ∧ w' = published_world (f <$> l) w ∨ l = [] ∧ w' = w.
Proof.
  revert w. induction l as [|x l IH]; intros w Hr.
  - right. by injection Hr as <-.
  - left. rewrite for_each_cons in Hr.
    destruct (publish (f x) w) as [[] w1| |] eqn:Hp; [|done..].
    apply publish_returns_done in Hp as [Hl ->]. split; [done|].
    rewrite fmap_cons, published_world_cons.
    destruct (IH _ Hr) as [[_ ->]|[-> ->]]; done.
Qed.

(** ** Room *)

Lemma roomy_not_full n w m q :
  roomy (S n) w → q ∈ targets (bus w) m → full w q = false.
Proof.
  intros Hroom Hq. unfold targets in Hq. destruct (msg_type m) as [t|]; [|by apply elem_of_nil in Hq].
  unfold full. destruct (Hroom t q Hq) as [H|H].
  - rewrite (bool_decide_eq_false_2 (0 < maxsize q)%Z); [done|lia].
  - rewrite (bool_decide_eq_false_2 (maxsize q ≤ _)%Z); [by rewrite andb_false_r|lia].
Qed.

Lemma roomy_publish_done n w m :
  registry_wf (bus w) → roomy (S n) w → roomy n (publish_done m w).
Proof.
  intros Hwf Hroom t q Hq. unfold registered in Hq.
  rewrite subscribers_publish_done in Hq.
  destruct (Hroom t q Hq) as [H|H]; [by left|right].
  rewrite items_publish_done by done. rewrite length_app.
  destruct (decide (q ∈ targets (bus w) m)); simpl; lia.
Qed.

(** With [length l] free slots in every bounded queue, a loop of publishes of
    well-formed messages on a free lock runs to its end. *)
Lemma for_each_publish_roomy {A} (f : A → Message) (l : list A) w :
  registry_wf (bus w) → lock (bus w) = false →
  (∀ x, x ∈ l → well_formed (f x)) → roomy (length l) w →
  for_each l (λ x, publish (f x)) w = Returns tt (published_world (f <$> l) w).
Proof.
  revert w. induction l as [|x l IH]; intros w Hwf Hl Hf Hroom; [done|].
  rewrite for_each_cons.
  rewrite (publish_with_room w (f x)); [|done..|by apply Hf; left|].
  - rewrite fmap_cons, published_world_cons. apply IH.
    + by apply registry_wf_publish_done.
    + by rewrite lock_publish_done.
    + intros y Hy. apply Hf. by right.
    + by apply roomy_publish_done.
  - intros q Hq. by eapply roomy_not_full.
Qed.

Lemma run_publishes ms w : run (Publish <$> ms) w = for_each ms (λ m, publish m) w.
Proof. unfold run. by rewrite for_each_fmap. Qed.


(** ** A burst of publishes *)

(** A burst of publishes of well-formed messages, started on a free lock
    with as many free slots in every bounded registered queue as there are
    messages, runs to its end without blocking: the counter has grown by
    the number of messages and the registry is as before. *)
Theorem publish_burst ms w :
  registry_wf (bus w) → lock (bus w) = false →
  Forall well_formed ms → roomy (length ms) w →
  ∃ w', run (Publish <$> ms) w = Returns tt w'
    ∧ message_count (bus w') = (message_count (bus w) + Z.of_nat (length ms))%Z
    ∧ subscribers (bus w') = subscribers (bus w)
    ∧ lock (bus w') = false.
Proof.
  intros Hwf Hl Hms Hroom. exists (published_world ms w). split_and!.
  - rewrite run_publishes.
    pose proof (for_each_publish_roomy id ms w Hwf Hl) as H.
    rewrite list_fmap_id in H. apply H; [|done].
    intros m Hm. by apply (proj1 (Forall_forall _ _) Hms).
  - apply message_count_published_world.
  - apply subscribers_published_world.
  - by rewrite lock_published_world.
Qed.

Lemma publish_burst_witness :
  let w := history [Subscribe (Member ORDER) inbox; Subscribe (Member ORDER) other;
                    Subscribe (Member PAYMENT) other] fresh in
  let ms := [o1; p1; o2; o3] in
  (registry_wf (bus w) ∧ lock (bus w) = false ∧ Forall well_formed ms
   ∧ roomy (length ms) w)
  ∧ ∃ w', run (Publish <$> ms) w = Returns tt w'
    ∧ message_count (bus w') = (message_count (bus w) + Z.of_nat (length ms))%Z
    ∧ subscribers (bus w') = subscribers (bus w)
    ∧ lock (bus w') = false.
Proof.
  intros w ms.
  assert (registry_wf (bus w)) as Hwf by decide_closed.
  assert (Forall well_formed ms) as Hms by (repeat constructor).
  assert (roomy (length ms) w) as Hroom.
  { intros t q Hq. destruct t; vm_compute in Hq;
      repeat (apply elem_of_cons in Hq as [->|Hq]); try (by apply elem_of_nil in Hq);
      vm_compute; ((by left; intros ?) || (by right; intros ?)). }
  split; [by split_and!|].
  exact (publish_burst ms w Hwf eq_refl Hms Hroom).
Defined.

(** ** One mailbox, several types *)

(** A queue registered under several types receives the messages of all of
    them in one order, the order of the publish calls: after a sequence of
    publishes that returns, what was put into [q] is the sequence of the
    published messages [q] was a target of, and [q] holds them after what it
    held. *)
Theorem mailbox_order ms w w' q :
  registry_wf (bus w) → run (Publish <$> ms) w = Returns tt w' →
  items w' q = items w q ++ filter (λ m, q ∈ targets (bus w) m) ms
  ∧ ∃ tr, trace w' = trace w ++ tr
      ∧ puts_into q tr = filter (λ m, q ∈ targets (bus w) m) ms
      ∧ gets_from q tr = [].
Proof.
  intros Hwf Hr. rewrite run_publishes in Hr.
  destruct (for_each_publish_returns id ms w w' Hr) as [[_ ->]|[E ->]].
  - rewrite list_fmap_id.
    split; [by apply items_published_world|by apply trace_published_world].
  - rewrite E. simpl. rewrite app_nil_r. split; [done|]. exists []. by rewrite app_nil_r.
Qed.

Lemma mailbox_order_witness :
  let w := history [Subscribe (Member ORDER) inbox; Subscribe (Member ORDER) other;
                    Subscribe (Member PAYMENT) other] fresh in
  let ms := [o1; p1; o2; o3] in
  let w' := after (run (Publish <$> ms) w) in
  (registry_wf (bus w) ∧ run (Publish <$> ms) w = Returns tt w')
  ∧ filter (λ m, other ∈ targets (bus w) m) ms = [o1; p1; o2; o3]
  ∧ filter (λ m, inbox ∈ targets (bus w) m) ms = [o1; o2; o3]
  ∧ items w' other = items w other ++ filter (λ m, other ∈ targets (bus w) m) ms
  ∧ ∃ tr, trace w' = trace w ++ tr
      ∧ puts_into other tr = filter (λ m, other ∈ targets (bus w) m) ms
      ∧ gets_from other tr = [].
Proof.
  intros w ms w'.
  assert (registry_wf (bus w)) as Hwf by decide_closed.
  assert (run (Publish <$> ms) w = Returns tt w') as Hr by (vm_compute; reflexivity).
  split; [by split|]. split; [vm_compute; reflexivity|]. split; [vm_compute; reflexivity|].
  exact (mailbox_order ms w w' other Hwf Hr).
Defined.

(** ** Backpressure *)



(** ** A publish that blocks *)

(** A publish that blocks on a full queue has delivered in part: the
    targets listed before the full queue have the message, once; the full
    queue, the targets after it and every other queue are as they were; the
    counter is incremented and the registry unchanged. *)
Theorem publish_blocked_partial m w q w' :
  registry_wf (bus w) → publish m w = Blocks (OnPut q) w' →
  ∃ pre rest, targets (bus w) m = pre ++ q :: rest
    ∧ full w q = true
    ∧ (∀ q', items w' q' = items w q' ++ (if decide (q' ∈ pre) then [m] else []))
    ∧ message_count (bus w') = (message_count (bus w) + 1)%Z
    ∧ subscribers (bus w') = subscribers (bus w).
Proof.
  intros Hwf Hp. destruct (lock (bus w)) eqn:Hl.
  { unfold publish in Hp. by rewrite with_lock_held in Hp. }
  destruct (publish_cases m w Hl) as [E|[(pre & q0 & rest & Et & Hf & E)|(e & _ & E)]];
    rewrite E in Hp; [done| |done].
  injection Hp as -> <-. exists pre, rest.
  pose proof (targets_NoDup _ m Hwf) as Hnd. rewrite Et in Hnd.
  apply NoDup_app in Hnd as (Hpre & Hdisj & _).
  split_and!; [done| | | |].
  - rewrite full_deliver_notin in Hf; [done|].
    intros Hin. apply (Hdisj _ Hin). left.
  - intros q'. change (items (set_lock true ?x) q') with (items x q').
    by rewrite items_deliver.
  - simpl. by rewrite bus_deliver.
  - simpl. by rewrite bus_deliver.
Qed.

Lemma publish_blocked_partial_witness :
  let w := history [Subscribe (Member ORDER) inbox; Subscribe (Member ORDER) small;
                    Subscribe (Member ORDER) other; Publish o1] fresh in
  let w' := after (publish o2 w) in
  (registry_wf (bus w) ∧ publish o2 w = Blocks (OnPut small) w')
  ∧ ∃ pre rest, targets (bus w) o2 = pre ++ small :: rest
    ∧ full w small = true
    ∧ (∀ q', items w' q' = items w q' ++ (if decide (q' ∈ pre) then [o2] else []))
    ∧ message_count (bus w') = (message_count (bus w) + 1)%Z
    ∧ subscribers (bus w') = subscribers (bus w).
Proof.
  intros w w'.
  assert (registry_wf (bus w)) as Hwf by decide_closed.
  assert (publish o2 w = Blocks (OnPut small) w') as Hp by (vm_compute; reflexivity).
  split; [by split|].
  exact (publish_blocked_partial o2 w small w' Hwf Hp).
Defined.

(** ** Subscription order and publish order *)

(** No replay: a queue subscribed to a type after a publish of that type
    does not receive the message published before. *)
Theorem no_replay m t q w :
  registry_wf (bus w) → lock (bus w) = false → of_type t m →
  q ∉ registered (bus w) t → roomy 1 w →
  ∃ w1 w2, publish m w = Returns tt w1
    ∧ subscribe (Member t) q w1 = Returns tt w2
    ∧ q ∈ registered (bus w2) t
    ∧ items w2 q = items w q.
Proof.
  intros Hwf Hl Hm Hq Hroom.
  assert (well_formed m) as Hwm by (unfold well_formed; by rewrite Hm).
  assert (targets (bus w) m = registered (bus w) t) as Ht
    by (unfold targets; by rewrite Hm).
  exists (publish_done m w).
  assert (publish m w = Returns tt (publish_done m w)) as Hp.
  { apply publish_with_room; [done..|]. intros q' Hq'. by eapply roomy_not_full. }
  assert (lock (bus (publish_done m w)) = false) as Hl1 by by rewrite lock_publish_done.
  destruct (Hwf t) as [[l El] _].
  assert (subscribers (bus (publish_done m w)) !! t = Some l) as El1
    by by rewrite subscribers_publish_done.
  rewrite (registered_lookup _ _ _ El) in Hq.
  eexists. split; [done|]. rewrite subscribe_eq, El1 by done.
  rewrite decide_False by done. split; [reflexivity|]. split.
  - rewrite (registered_update (publish_done m w)). rewrite decide_True by done.
    apply elem_of_app. right. left.
  - change (items (set_subscribers ?s ?x) q) with (items x q).
    rewrite items_publish_done by done. rewrite decide_False; [by rewrite app_nil_r|].
    by rewrite Ht, (registered_lookup _ _ _ El).
Qed.

Lemma no_replay_witness :
  let w := after (subscribe (Member ORDER) inbox fresh) in
  (registry_wf (bus w) ∧ lock (bus w) = false ∧ of_type ORDER o1
   ∧ (other ∉ registered (bus w) ORDER) ∧ roomy 1 w)
  ∧ ∃ w1 w2, publish o1 w = Returns tt w1
    ∧ subscribe (Member ORDER) other w1 = Returns tt w2
    ∧ other ∈ registered (bus w2) ORDER
    ∧ items w2 other = items w other.
Proof.
  intros w.
  assert (registry_wf (bus w)) as Hwf by decide_closed.
  assert (other ∉ registered (bus w) ORDER) as Hq by decide_closed.
  assert (roomy 1 w) as Hroom.
  { intros t q Hq'. destruct t; vm_compute in Hq';
      repeat (apply elem_of_cons in Hq' as [->|Hq']); try (by apply elem_of_nil in Hq').
    by left. }
  split; [by split_and!|].
  exact (no_replay o1 ORDER other w Hwf eq_refl eq_refl Hq Hroom).
Defined.



(** Subscriptions to two different types can be made in either order: the
    world they leave is the same. *)
Theorem subscribe_commute t1 t2 q1 q2 w :
  registry_wf (bus w) → lock (bus w) = false → t1 ≠ t2 →
  history [Subscribe (Member t1) q1; Subscribe (Member t2) q2] w
  = history [Subscribe (Member t2) q2; Subscribe (Member t1) q1] w.
Proof.
  intros Hwf Hl Hne. destruct (Hwf t1) as [[l1 E1] _]. destruct (Hwf t2) as [[l2 E2] _].
  unfold history. cbn [foldl exec].
  assert (∀ t q t' l' (x : World), t ≠ t' → lock (bus x) = false →
    subscribers (bus x) !! t' = Some l' →
    lock (bus (after (subscribe (Member t) q x))) = false
    ∧ subscribers (bus (after (subscribe (Member t) q x))) !! t' = Some l') as Hkeep.
  { intros t q t' l' x Ht Hx Ex. rewrite subscribe_eq by done.
    destruct (subscribers (bus x) !! t) as [l|]; [|done].
    destruct (decide (q ∈ l)); [done|]. simpl. by rewrite lookup_insert_ne. }
  destruct (Hkeep t1 q1 t2 l2 w Hne Hl E2) as [Hl1 E21].
  destruct (Hkeep t2 q2 t1 l1 w (not_eq_sym Hne) Hl E1) as [Hl2 E12].
  rewrite (subscribe_eq _ q2 (after (subscribe (Member t1) q1 w))) by done.
  rewrite (subscribe_eq _ q1 (after (subscribe (Member t2) q2 w))) by done.
  rewrite E21, E12. rewrite !subscribe_eq by done. rewrite E1, E2.
  destruct (decide (q1 ∈ l1)), (decide (q2 ∈ l2)); cbn [after]; try done.
  unfold set_subscribers; simpl. by rewrite insert_insert_ne.
Qed.

Lemma subscribe_commute_witness :
  let w := after (subscribe (Member ORDER) inbox fresh) in
  (registry_wf (bus w) ∧ lock (bus w) = false ∧ ORDER ≠ PAYMENT)
  ∧ history [Subscribe (Member ORDER) other; Subscribe (Member PAYMENT) inbox] w
    = history [Subscribe (Member PAYMENT) inbox; Subscribe (Member ORDER) other] w.
Proof.
  intros w.
  assert (registry_wf (bus w)) as Hwf by decide_closed.
  assert (ORDER ≠ PAYMENT) as Hne by discriminate.
  split; [by split_and!|].
  exact (subscribe_commute ORDER PAYMENT other inbox w Hwf eq_refl Hne).
Defined.

(** Two new subscriptions to one type are served in the order they were
    made: the list of the type ends with the two queues in that order, and
    the list is the order of the dispatch loop. *)
Theorem subscribe_in_order t q1 q2 w :
  registry_wf (bus w) → lock (bus w) = false →
  q1 ≠ q2 → q1 ∉ registered (bus w) t → q2 ∉ registered (bus w) t →
  registered (bus (history [Subscribe (Member t) q1; Subscribe (Member t) q2] w)) t
  = registered (bus w) t ++ [q1; q2].
Proof.
  intros Hwf Hl Hq Hq1 Hq2. destruct (Hwf t) as [[l1 E1] _].
  unfold history. cbn [foldl exec].
  rewrite (registered_lookup _ _ _ E1) in Hq1, Hq2 |- *.
  rewrite (subscribe_eq _ q1 w), E1 by done. rewrite decide_False by done.
  cbn [after].
  set (w1 := set_subscribers (<[t := l1 ++ [q1]]> (subscribers (bus w))) w).
  assert (subscribers (bus w1) !! t = Some (l1 ++ [q1])) as E by apply lookup_insert_eq.
  rewrite subscribe_eq, E by done. rewrite decide_False.
  - cbn [after]. rewrite registered_update, decide_True by done.
    by rewrite <-app_assoc.
  - intros Hin. apply elem_of_app in Hin as [?|Hin]; [done|].
    apply list_elem_of_singleton in Hin. done.
Qed.

Lemma subscribe_in_order_witness :
  let w := after (subscribe (Member ORDER) small fresh) in
  (registry_wf (bus w) ∧ lock (bus w) = false ∧ inbox ≠ other
   ∧ (inbox ∉ registered (bus w) ORDER) ∧ (other ∉ registered (bus w) ORDER))
  ∧ registered (bus (history [Subscribe (Member ORDER) inbox;
                              Subscribe (Member ORDER) other] w)) ORDER
    = registered (bus w) ORDER ++ [inbox; other].
Proof.
  intros w.
  assert (registry_wf (bus w)) as Hwf by decide_closed.
  assert (inbox ≠ other) as Hne by discriminate.
  assert (inbox ∉ registered (bus w) ORDER) as H1 by decide_closed.
  assert (other ∉ registered (bus w) ORDER) as H2 by decide_closed.
  split; [by split_and!|].
  exact (subscribe_in_order ORDER inbox other w Hwf eq_refl Hne H1 H2).
Defined.

(** ** get_stats and the registry *)

Lemma stats_lookup_value (subs : gmap MessageType (list Queue)) t :
  map_fold (λ msg_type l stats, <[value msg_type := Z.of_nat (length l)]> stats)
           (∅ : gmap string Z) subs !! value t
  = (λ l, Z.of_nat (length l)) <$> subs !! t.
Proof.
  destruct (subs !! t) as [l|] eqn:E; simpl.
  - apply stats_lookup. by exists t, l.
  - apply eq_None_not_Some. intros [n Hn].
    apply stats_lookup in Hn as (t' & l' & Et & E' & _).
    apply (inj value) in Et as <-. congruence.
Qed.

(** On every bus reached from a new one, get_stats (on a free lock) reports
    all five message types, each under its label with the length of its
    subscriber list (zero for a type nobody subscribed to), and nothing
    else. *)
Theorem get_stats_total nm cs :
  lock (bus (history cs (initial_world nm))) = false →
  ∃ s, get_stats (history cs (initial_world nm)) = Returns s (history cs (initial_world nm))
     ∧ ∀ label n, s !! label = Some n ↔
         ∃ t, label = value t
            ∧ n = Z.of_nat (length (registered (bus (history cs (initial_world nm))) t)).
Proof.
  intros Hl. set (w := history cs (initial_world nm)) in *.
  assert (registry_wf (bus w)) as Hwf by apply history_wf, initial_wf.
  eexists. split; [by apply get_stats_eq|]. intros label n. rewrite stats_lookup. split.
  - intros (t & l & -> & El & ->). exists t. by rewrite (registered_lookup _ _ _ El).
  - intros (t & -> & ->). destruct (Hwf t) as [[l El] _].
    exists t, l. by rewrite (registered_lookup _ _ _ El).
Qed.

Lemma get_stats_total_witness :
  let cs := [Subscribe (Member ORDER) inbox; Subscribe (Member PAYMENT) inbox;
             Subscribe (Member ORDER) other; Publish o1; Unsubscribe alien inbox] in
  lock (bus (history cs (initial_world default_name))) = false
  ∧ ∃ s, get_stats (history cs (initial_world default_name))
         = Returns s (history cs (initial_world default_name))
     ∧ ∀ label n, s !! label = Some n ↔
         ∃ t, label = value t
            ∧ n = Z.of_nat (length (registered
                                     (bus (history cs (initial_world default_name))) t)).
Proof.
  intros cs. split; [vm_compute; reflexivity|].
  apply (get_stats_total default_name cs). vm_compute; reflexivity.
Defined.

(** get_stats follows the registry: after subscribe(t, q) the entry of [t] is
    one more than before when [q] was not registered for [t] and the same
    otherwise; after unsubscribe(t, q) it is one less when [q] was
    registered and the same otherwise; the entries of the other types do not
    change. *)
Theorem get_stats_tracks t q w :
  registry_wf (bus w) → lock (bus w) = false →
  ∃ s0 w1 s1 w2 s2,
    get_stats w = Returns s0 w
    ∧ subscribe (Member t) q w = Returns tt w1 ∧ get_stats w1 = Returns s1 w1
    ∧ unsubscribe (Member t) q w = Returns tt w2 ∧ get_stats w2 = Returns s2 w2
    ∧ s0 !! value t = Some (Z.of_nat (length (registered (bus w) t)))
    ∧ s1 !! value t =
        Some (Z.of_nat (length (registered (bus w) t))
              + if decide (q ∈ registered (bus w) t) then 0 else 1)%Z
    ∧ s2 !! value t =
        Some (Z.of_nat (length (registered (bus w) t))
              - if decide (q ∈ registered (bus w) t) then 1 else 0)%Z
    ∧ ∀ t', t' ≠ t → s1 !! value t' = s0 !! value t' ∧ s2 !! value t' = s0 !! value t'.
Proof.
  intros Hwf Hl. destruct (Hwf t) as [[l El] Hnd].
  rewrite (registered_lookup _ _ _ El) in Hnd |- *.
  assert (∀ l', ∃ s, get_stats (set_subscribers (<[t := l']> (subscribers (bus w))) w)
      = Returns s (set_subscribers (<[t := l']> (subscribers (bus w))) w)
    ∧ s !! value t = Some (Z.of_nat (length l'))
    ∧ ∀ t', t' ≠ t → s !! value t' = (λ l, Z.of_nat (length l)) <$> subscribers (bus w) !! t')
    as Hupd.
  { intros l'. eexists. split; [by apply get_stats_eq|]. split.
    - rewrite stats_lookup_value. simpl. by rewrite lookup_insert_eq.
    - intros t' Ht. rewrite stats_lookup_value. simpl. by rewrite lookup_insert_ne. }
  assert (∃ s0, get_stats w = Returns s0 w
    ∧ ∀ t', s0 !! value t' = (λ l, Z.of_nat (length l)) <$> subscribers (bus w) !! t')
    as (s0 & Hs0 & Hs0l).
  { eexists. split; [by apply get_stats_eq|]. intros t'. apply stats_lookup_value. }
  exists s0. rewrite subscribe_eq, unsubscribe_eq, El by done.
  destruct (decide (q ∈ l)) as [Hin|Hout].
  - destruct (list_remove_elem q l Hin) as [l' Er]. rewrite Er.
    destruct (Hupd l') as (s2 & Hs2 & Hs2t & Hs2o).
    exists w, s0, (set_subscribers (<[t := l']> (subscribers (bus w))) w), s2. split_and!; try done.
    + by rewrite Hs0l, El.
    + rewrite Hs0l, El. simpl. f_equal. lia.
    + rewrite Hs2t. f_equal.
      rewrite (list_remove_filter _ _ _ Hnd Er).
      assert (length l = S (length (filter (λ y, y ≠ q) l))) as ->; [|lia].
      clear -Hin Hnd. induction l as [|y l IH]; [by apply elem_of_nil in Hin|].
      apply NoDup_cons in Hnd as [Hy Hnd].
      destruct (decide (y = q)) as [->|Hne].
      * rewrite filter_cons_False by naive_solver.
        rewrite filter_all; [done|]. intros z Hz ->. done.
      * rewrite filter_cons_True by done. simpl. f_equal. apply IH; [done|].
        apply elem_of_cons in Hin as [?|?]; [congruence|done].
    + intros t' Ht. split; [done|]. by rewrite Hs2o, Hs0l.
  - destruct (Hupd (l ++ [q])) as (s1 & Hs1 & Hs1t & Hs1o).
    exists (set_subscribers (<[t := l ++ [q]]> (subscribers (bus w))) w), s1, w, s0. split_and!; try done.
    + by rewrite Hs0l, El.
    + rewrite Hs1t, length_app. simpl. f_equal. lia.
    + rewrite Hs0l, El. simpl. f_equal. lia.
    + intros t' Ht. split; [|done]. by rewrite Hs1o, Hs0l.
Qed.

Lemma get_stats_tracks_witness :
  let w := history [Subscribe (Member ORDER) inbox; Subscribe (Member PAYMENT) other] fresh in
  (registry_wf (bus w) ∧ lock (bus w) = false)
  ∧ ∃ s0 w1 s1 w2 s2,
    get_stats w = Returns s0 w
    ∧ subscribe (Member ORDER) other w = Returns tt w1 ∧ get_stats w1 = Returns s1 w1
    ∧ unsubscribe (Member ORDER) other w = Returns tt w2 ∧ get_stats w2 = Returns s2 w2
    ∧ s0 !! value ORDER = Some (Z.of_nat (length (registered (bus w) ORDER)))
    ∧ s1 !! value ORDER =
        Some (Z.of_nat (length (registered (bus w) ORDER))
              + if decide (other ∈ registered (bus w) ORDER) then 0 else 1)%Z
    ∧ s2 !! value ORDER =
        Some (Z.of_nat (length (registered (bus w) ORDER))
              - if decide (other ∈ registered (bus w) ORDER) then 1 else 0)%Z
    ∧ ∀ t', t' ≠ ORDER →
        s1 !! value t' = s0 !! value t' ∧ s2 !! value t' = s0 !! value t'.
Proof.
  intros w.
  assert (registry_wf (bus w)) as Hwf by decide_closed.
  split; [by split|].
  exact (get_stats_tracks ORDER other w Hwf eq_refl).
Defined.

(** ** Capacity *)

Lemma within_capacity_store w w' :
  store w' = store w → within_capacity w → within_capacity w'.
Proof. intros E H q Hq. unfold items. rewrite E. by apply H. Qed.

Lemma within_capacity_dispatch m l w :
  within_capacity w →
  within_capacity (after (for_each l (λ sub_queue, put sub_queue m) w)).
Proof.
  revert w. induction l as [|x l IH]; intros w Hw; [done|].
  rewrite for_each_cons. destruct (full w x) eqn:Hf.
  - by rewrite put_full.
  - rewrite put_room by done. apply IH. intros q Hq.
    rewrite items_enqueue. destruct (decide (x = q)) as [->|]; [|by apply Hw].
    rewrite length_app. simpl. unfold full in Hf.
    apply andb_false_iff in Hf as [Hf|Hf]; apply bool_decide_eq_false in Hf; lia.
Qed.

Lemma within_capacity_publish m w :
  within_capacity w → within_capacity (after (publish m w)).
Proof.
  intros Hw. destruct (lock (bus w)) eqn:Hl.
  { unfold publish. by rewrite with_lock_held. }
  rewrite publish_eq by done.
  pose proof (within_capacity_dispatch m (targets (bus w) m) (set_lock true (counted w)))
    as Hd.
  destruct (msg_type m) as [t|[] [v|]]; try done;
    destruct (for_each _ _ _); by apply Hd.
Qed.

(** A bounded queue never holds more than its [maxsize]: whatever calls are
    made on the bus and by the consumers, with whatever outcomes, the
    bounded queues stay within capacity. *)
Theorem capacity_respected cs w :
  within_capacity w → within_capacity (history cs w).
Proof.
  revert w. induction cs as [|c cs IH]; intros w Hw; [done|].
  rewrite history_cons. apply IH. destruct c as [k q|k q|m| |q]; simpl.
  - eapply within_capacity_store; [|done]. apply subscribe_frame.
  - eapply within_capacity_store; [|done]. apply unsubscribe_frame.
  - by apply within_capacity_publish.
  - by rewrite after_then_ret, get_stats_after.
  - rewrite after_then_ret.
    destruct (consume_cases q w) as [[_ ->]|(m & rest & Ei & ->)]; [done|].
    intros q' Hq'. unfold items. simpl. destruct (decide (q = q')) as [->|Hne].
    + rewrite lookup_insert_eq. simpl. specialize (Hw q' Hq').
      rewrite Ei in Hw. simpl in Hw. lia.
    + rewrite lookup_insert_ne by done. by apply Hw.
Qed.

Lemma capacity_respected_witness :
  let cs := [Subscribe (Member ORDER) small; Publish o1; Publish o2; Consume small;
             Publish o3] in
  within_capacity fresh ∧ within_capacity (history cs fresh).
Proof.
  intros cs.
  assert (within_capacity fresh) as H.
  { intros q Hq. unfold items, fresh, initial_world. simpl. rewrite lookup_empty.
    simpl. lia. }
  split; [exact H|]. exact (capacity_respected cs fresh H).
Defined.

(** * The client roles *)

Lemma for_each_ext {A} (l : list A) (body1 body2 : A → M unit) w :
  (∀ x w, body1 x w = body2 x w) → for_each l body1 w = for_each l body2 w.
Proof.
  intros H. revert w. induction l as [|x l IH]; intros w; [done|].
  rewrite !for_each_cons, H. destruct (body2 x w); [apply IH|done..].
Qed.

Lemma for_each_app {A} (l1 l2 : list A) (body : A → M unit) w :
  for_each (l1 ++ l2) body w =
    match for_each l1 body w with
    | Returns _ w' => for_each l2 body w'
    | Raises e w' => Raises e w'
    | Blocks on w' => Blocks on w'
    end.
Proof.
  revert w. induction l1 as [|x l1 IH]; intros w; [done|].
  rewrite <-app_comm_cons, !for_each_cons. destruct (body x w); [apply IH|done..].
Qed.

Lemma filter_keep {A} (P : A → Prop) `{∀ x, Decision (P x)} (l : list A) :
  (∀ x, x ∈ l → P x) → filter P l = l.
Proof.
  induction l as [|y l IH]; intros HP; [done|].
  rewrite filter_cons_True by (apply HP; left).
  f_equal. apply IH. intros x Hx. apply HP. by right.
Qed.

Lemma filter_drop {A} (P : A → Prop) `{∀ x, Decision (P x)} (l : list A) :
  (∀ x, x ∈ l → ¬ P x) → filter P l = [].
Proof.
  induction l as [|y l IH]; intros HP; [done|].
  rewrite filter_cons_False by (apply HP; left).
  apply IH. intros x Hx. apply HP. by right.
Qed.

Lemma attr_value_has_value k w : has_value k → ∃ v, attr_value k w = Returns v w.
Proof. destruct k as [t|h [v|]]; [by eexists..|done]. Qed.

(** ** Producer.run *)

Lemma producer_run_eq now (self : Producer.t) ty w :
  Producer.msg_type self = Member ty →
  Producer.run now self w =
    for_each (seq 0 (Z.to_nat (Producer.count self)))
      (λ i, publish (mkMessage (Member ty) (Producer.content_of (value ty) i)
                               (Producer.name self) (now i))) w.
Proof.
  intros E. unfold Producer.run. rewrite E. unfold bind at 1. simpl.
  by apply for_each_ext.
Qed.

Lemma producer_run_world now (self : Producer.t) ty w :
  Producer.msg_type self = Member ty →
  registry_wf (bus w) → lock (bus w) = false →
  roomy (Z.to_nat (Producer.count self)) w →
  Producer.run now self w =
    Returns tt (published_world (Producer.messages now self ty) w).
Proof.
  intros E Hwf Hl Hroom. rewrite (producer_run_eq _ _ ty) by done.
  apply (for_each_publish_roomy
    (λ i, mkMessage (Member ty) (Producer.content_of (value ty) i)
                    (Producer.name self) (now i))); [done..| |].
  - by intros.
  - by rewrite length_seq.
Qed.

Lemma targets_producer_messages now (self : Producer.t) ty b m :
  m ∈ Producer.messages now self ty → targets b m = registered b ty.
Proof.
  unfold Producer.messages. intros (i & -> & _)%list_elem_of_fmap. done.
Qed.

(** A producer of a member type, started on a free lock with room in every
    bounded queue for the messages it will publish, runs to its end: the
    counter has grown by [count] (by nothing when [count <= 0]), every queue
    registered for the type holds, after what it held, the messages numbered
    1 to [count] in that order, and no other queue has changed. *)
Theorem producer_run now (self : Producer.t) ty w :
  Producer.msg_type self = Member ty →
  registry_wf (bus w) → lock (bus w) = false →
  roomy (Z.to_nat (Producer.count self)) w →
  ∃ w', Producer.run now self w = Returns tt w'
    ∧ message_count (bus w') =
        (message_count (bus w) + Z.of_nat (Z.to_nat (Producer.count self)))%Z
    ∧ (∀ q, items w' q =
             items w q ++ (if decide (q ∈ registered (bus w) ty)
                           then Producer.messages now self ty else []))
    ∧ subscribers (bus w') = subscribers (bus w).
Proof.
  intros E Hwf Hl Hroom. eexists. split; [by apply (producer_run_world _ _ ty)|].
  split_and!.
  - rewrite message_count_published_world. unfold Producer.messages.
    by rewrite length_fmap, length_seq.
  - intros q. rewrite items_published_world by done. f_equal.
    destruct (decide (q ∈ registered (bus w) ty)) as [Hq|Hq].
    + apply filter_keep. intros m Hm. by rewrite (targets_producer_messages _ _ _ _ _ Hm).
    + apply filter_drop. intros m Hm. by rewrite (targets_producer_messages _ _ _ _ _ Hm).
  - apply subscribers_published_world.
Qed.

Lemma producer_run_witness :
  let w := history [Subscribe (Member ORDER) inbox; Subscribe (Member PAYMENT) other] fresh in
  let self := Producer.mk "A" (Member ORDER) 3 in
  let now := λ i : nat, Z.of_nat i in
  (Producer.msg_type self = Member ORDER ∧ registry_wf (bus w) ∧ lock (bus w) = false
   ∧ roomy (Z.to_nat (Producer.count self)) w)
  ∧ Producer.content_of (value ORDER) 2 = (value ORDER +:+ "数据-3")%string
  ∧ ∃ w', Producer.run now self w = Returns tt w'
    ∧ message_count (bus w') =
        (message_count (bus w) + Z.of_nat (Z.to_nat (Producer.count self)))%Z
    ∧ (∀ q, items w' q =
             items w q ++ (if decide (q ∈ registered (bus w) ORDER)
                           then Producer.messages now self ORDER else []))
    ∧ subscribers (bus w') = subscribers (bus w).
Proof.
  intros w self now.
  assert (registry_wf (bus w)) as Hwf by decide_closed.
  assert (roomy (Z.to_nat (Producer.count self)) w) as Hroom.
  { intros t q Hq. destruct t; vm_compute in Hq;
      repeat (apply elem_of_cons in Hq as [->|Hq]); try (by apply elem_of_nil in Hq);
      vm_compute; ((by left; intros ?) || (by right; intros ?)). }
  split; [by split_and!|]. split; [vm_compute; reflexivity|].
  exact (producer_run now self ORDER w eq_refl Hwf eq_refl Hroom).
Defined.

(** A producer whose type is not a member of MessageType: when the object
    has no [value] attribute, run raises at its first print and nothing is
    published; when it is hashable and has one, run (on a free lock) returns
    having counted every publish, and no queue, nor the registry, has
    changed: the messages are lost. *)
Theorem producer_foreign_type now (self : Producer.t) h w :
  (Producer.msg_type self = Foreign h None →
   Producer.run now self w = Raises AttributeError w)
  ∧ (∀ v, Producer.msg_type self = Foreign true (Some v) → lock (bus w) = false →
     ∃ w', Producer.run now self w = Returns tt w'
       ∧ message_count (bus w') =
           (message_count (bus w) + Z.of_nat (Z.to_nat (Producer.count self)))%Z
       ∧ store w' = store w ∧ trace w' = trace w
       ∧ subscribers (bus w') = subscribers (bus w)).
Proof.
  split.
  - intros E. unfold Producer.run. by rewrite E.
  - intros v E Hl. unfold Producer.run. rewrite E. unfold bind at 1. simpl.
    generalize 0 at 1 as i. revert w Hl.
    induction (Z.to_nat (Producer.count self)) as [|n IH]; intros w Hl i.
    + exists w. simpl. split_and!; [done|lia|done..].
    + cbn [seq]. rewrite for_each_cons. unfold bind at 1. simpl.
      set (m := mkMessage _ _ _ _).
      assert (publish m w = Returns tt (counted w)) as ->.
      { rewrite publish_eq by done.
        change (Returns tt (release (set_lock true (counted w))) = Returns tt (counted w)).
        by rewrite (release_acquired (counted w)). }
      destruct (IH (counted w) Hl (S i)) as (w' & Hr & Hc & Hst & Htr & Hsub).
      exists w'. split; [done|]. rewrite Hc, Hst, Htr, Hsub. simpl. split_and!; [lia|done..].
Qed.

Lemma producer_foreign_type_witness :
  let self := Producer.mk "A" alien 2 in
  let now := λ i : nat, Z.of_nat i in
  (Producer.msg_type self = alien ∧ lock (bus fresh) = false)
  ∧ ∃ w', Producer.run now self fresh = Returns tt w'
       ∧ message_count (bus w') =
           (message_count (bus fresh) + Z.of_nat (Z.to_nat (Producer.count self)))%Z
       ∧ store w' = store fresh ∧ trace w' = trace fresh
       ∧ subscribers (bus w') = subscribers (bus fresh).
Proof.
  intros self now. split; [by split|].
  destruct (producer_foreign_type now self true fresh) as [_ H].
  exact (H "alien"%string eq_refl eq_refl).
Defined.

(** ** Consumer.__init__ *)

(** The loop of subscriptions of one queue to a list of member types. *)
Lemma subscribe_each ts q w :
  registry_wf (bus w) → lock (bus w) = false →
  ∃ w', for_each (Member <$> ts) (λ msg_type, subscribe msg_type q) w = Returns tt w'
    ∧ (∀ t, registered (bus w') t =
            registered (bus w) t
            ++ (if decide (t ∈ ts ∧ q ∉ registered (bus w) t) then [q] else []))
    ∧ registry_wf (bus w') ∧ lock (bus w') = false
    ∧ store w' = store w ∧ trace w' = trace w
    ∧ message_count (bus w') = message_count (bus w).
Proof.
  revert w. induction ts as [|t0 ts IH]; intros w Hwf Hl.
  - exists w. split_and!; try done. intros t.
    rewrite decide_False; [by rewrite app_nil_r|]. intros [H _]. by apply elem_of_nil in H.
  - rewrite fmap_cons, for_each_cons.
    pose proof (exec_wf (Subscribe (Member t0) q) w Hwf) as Hwf1. simpl in Hwf1.
    destruct (Hwf t0) as [[l El] _].
    rewrite subscribe_eq, El in Hwf1 |- * by done.
    destruct (decide (q ∈ l)) as [Hin|Hout]; cbn [after] in Hwf1.
    + destruct (IH w Hwf Hl) as (w' & Hr & Hreg & Hrest). exists w'.
      split; [done|]. split; [|done]. intros t. rewrite Hreg. f_equal.
      apply decide_ext. split; intros [Ht Hq]; (split; [|done]).
      * by right.
      * apply elem_of_cons in Ht as [->|Ht]; [|done].
        by rewrite (registered_lookup _ _ _ El) in Hq.
    + set (w1 := set_subscribers (<[t0 := l ++ [q]]> (subscribers (bus w))) w) in *.
      destruct (IH w1 Hwf1 Hl) as (w' & Hr & Hreg & Hrest). exists w'.
      split; [done|]. split; [|done]. intros t. rewrite Hreg. unfold w1.
      rewrite registered_update. destruct (decide (t0 = t)) as [<-|Hne].
      * rewrite (registered_lookup _ _ _ El).
        rewrite (decide_False (P := _ ∧ q ∉ l ++ [q])).
        -- rewrite decide_True; [by rewrite app_nil_r|]. split; [left|done].
        -- intros [_ H]. apply H, elem_of_app. right. left.
      * f_equal. apply decide_ext. split; intros [Ht Hq]; (split; [|done]).
        -- by right.
        -- apply elem_of_cons in Ht as [->|Ht]; done.
Qed.

(** A consumer created on a free lock for a list of member types: its new
    queue, of capacity 20, is appended to the list of each of these types
    where it was not yet, once also when a type is named twice; the lists of
    the other types, the counter and the queues are as they were. *)
Theorem consumer_init id nm ts cnt w :
  registry_wf (bus w) → lock (bus w) = false →
  ∃ self w', Consumer.init id nm (Member <$> ts) cnt w = Returns self w'
    ∧ self = Consumer.mk nm (Member <$> ts) cnt (mkQueue id 20)
    ∧ (∀ t, registered (bus w') t =
            registered (bus w) t
            ++ (if decide (t ∈ ts ∧ mkQueue id 20 ∉ registered (bus w) t)
                then [mkQueue id 20] else []))
    ∧ registry_wf (bus w')
    ∧ store w' = store w ∧ message_count (bus w') = message_count (bus w).
Proof.
  intros Hwf Hl.
  destruct (subscribe_each ts (mkQueue id 20) w Hwf Hl)
    as (w' & Hr & Hreg & Hwf' & _ & Hst & _ & Hc).
  exists (Consumer.mk nm (Member <$> ts) cnt (mkQueue id 20)), w'.
  split; [|done]. unfold Consumer.init. unfold bind. cbn [Consumer.message_queue].
  by rewrite Hr.
Qed.

Lemma consumer_init_witness :
  let w := after (subscribe (Member ORDER) inbox fresh) in
  (registry_wf (bus w) ∧ lock (bus w) = false)
  ∧ ∃ self w',
      Consumer.init 7 "c" (Member <$> [ORDER; PAYMENT; ORDER]) 3 w = Returns self w'
    ∧ self = Consumer.mk "c" (Member <$> [ORDER; PAYMENT; ORDER]) 3 (mkQueue 7 20)
    ∧ (∀ t, registered (bus w') t =
            registered (bus w) t
            ++ (if decide (t ∈ [ORDER; PAYMENT; ORDER]
                           ∧ mkQueue 7 20 ∉ registered (bus w) t)
                then [mkQueue 7 20] else []))
    ∧ registry_wf (bus w')
    ∧ store w' = store w ∧ message_count (bus w') = message_count (bus w).
Proof.
  intros w.
  assert (registry_wf (bus w)) as Hwf by decide_closed.
  split; [by split|].
  exact (consumer_init 7 "c" [ORDER; PAYMENT; ORDER] 3 w Hwf eq_refl).
Defined.

(** A consumer created with an object that is not a member among its types
    is not created: __init__ raises at that object ([KeyError], or
    [TypeError] for an unhashable one).  The subscriptions to the types
    listed before it are made and stay: the new queue is left in the
    registry. *)
Theorem consumer_init_partial id nm ts k rest cnt w :
  registry_wf (bus w) → lock (bus w) = false → is_member k = false →
  ∃ e w', Consumer.init id nm ((Member <$> ts) ++ k :: rest) cnt w = Raises e w'
    ∧ (e = KeyError ∨ e = TypeError)
    ∧ (∀ t, registered (bus w') t =
            registered (bus w) t
            ++ (if decide (t ∈ ts ∧ mkQueue id 20 ∉ registered (bus w) t)
                then [mkQueue id 20] else []))
    ∧ lock (bus w') = false.
Proof.
  intros Hwf Hl Hk.
  destruct (subscribe_each ts (mkQueue id 20) w Hwf Hl)
    as (w' & Hr & Hreg & Hwf' & Hl' & _).
  unfold Consumer.init. unfold bind. cbn [Consumer.message_queue].
  rewrite for_each_app, Hr, for_each_cons, subscribe_eq by done.
  destruct k as [t|[] v]; [done| |].
  - exists KeyError, w'. split_and!; eauto.
  - exists TypeError, w'. split_and!; eauto.
Qed.

Lemma consumer_init_partial_witness :
  (registry_wf (bus fresh) ∧ lock (bus fresh) = false ∧ is_member alien = false)
  ∧ ∃ e w',
      Consumer.init 7 "c" ((Member <$> [ORDER]) ++ alien :: [Member PAYMENT]) 3 fresh
      = Raises e w'
    ∧ (e = KeyError ∨ e = TypeError)
    ∧ (∀ t, registered (bus w') t =
            registered (bus fresh) t
            ++ (if decide (t ∈ [ORDER] ∧ mkQueue 7 20 ∉ registered (bus fresh) t)
                then [mkQueue 7 20] else []))
    ∧ lock (bus w') = false.
Proof.
  assert (registry_wf (bus fresh)) as Hwf by decide_closed.
  split; [by split_and!|].
  exact (consumer_init_partial 7 "c" [ORDER] alien [Member PAYMENT] 3 fresh
           Hwf eq_refl eq_refl).
Defined.

(** ** Consumer.run *)

Lemma Message_str_printable m w : printable m → ∃ s, Message_str m w = Returns s w.
Proof.
  intros Hm. unfold Message_str, bind.
  destruct (attr_value_has_value _ w Hm) as [v ->]. by eexists.
Qed.

Lemma consumer_first_print (tys : list pyobj) w :
  Forall has_value tys →
  for_each tys (λ t, attr_value t ;; ret tt) w = Returns tt w.
Proof.
  induction 1 as [|k tys Hk _ IH]; [done|].
  rewrite for_each_cons. unfold bind at 1.
  destruct (attr_value_has_value k w Hk) as [v ->]. exact IH.
Qed.

Lemma consumer_loop_drains (self : Consumer.t) ms rest fuel consumed w :
  items w (Consumer.message_queue self) = ms ++ rest →
  Forall printable ms →
  Z.to_nat (Consumer.count self - consumed) = length ms →
  length ms ≤ fuel →
  ∃ w', Consumer.loop fuel self consumed w = Some (Returns tt w')
    ∧ items w' (Consumer.message_queue self) = rest
    ∧ (∀ q, q ≠ Consumer.message_queue self → items w' q = items w q)
    ∧ bus w' = bus w
    ∧ trace w' = trace w ++ (EvGet (Consumer.message_queue self) <$> ms).
Proof.
  revert fuel consumed w. induction ms as [|m ms IH]; intros fuel consumed w Hit Hms Hc Hf.
  - exists w. simpl in *. rewrite app_nil_r. split_and!; try done.
    destruct fuel; simpl; by rewrite decide_False by lia.
  - apply Forall_cons in Hms as [Hm Hms]. simpl in Hc, Hf.
    destruct fuel as [|fuel]; [lia|]. simpl.
    rewrite decide_True by lia. unfold get. rewrite Hit. simpl.
    set (w1 := mkWorld _ _ _).
    destruct (Message_str_printable m w1 Hm) as [s ->].
    destruct (IH fuel (consumed + 1)%Z w1) as (w' & Hr & Hq & Hother & Hbus & Htr);
      [|done|lia|lia|].
    { unfold items, w1. simpl. by rewrite lookup_insert_eq. }
    exists w'. split; [done|]. split; [done|]. split_and!.
    + intros q Hne. rewrite Hother by done. unfold items, w1. simpl.
      by rewrite lookup_insert_ne.
    + done.
    + rewrite Htr. unfold w1. simpl. by rewrite <-app_assoc.
Qed.

(** A consumer whose queue holds at least [count] messages consumes the
    oldest [count] of them, in the order they were put, and returns; the
    later ones stay in the queue; the bus and the other queues are not
    touched. *)
Theorem consumer_run_completes (self : Consumer.t) ms rest fuel w :
  Forall has_value (Consumer.interested_types self) →
  items w (Consumer.message_queue self) = ms ++ rest →
  Forall printable ms →
  length ms = Z.to_nat (Consumer.count self) →
  length ms ≤ fuel →
  ∃ w', Consumer.run fuel self w = Some (Returns tt w')
    ∧ items w' (Consumer.message_queue self) = rest
    ∧ (∀ q, q ≠ Consumer.message_queue self → items w' q = items w q)
    ∧ bus w' = bus w
    ∧ trace w' = trace w ++ (EvGet (Consumer.message_queue self) <$> ms).
Proof.
  intros Hty Hit Hms Hc Hf. unfold Consumer.run.
  rewrite consumer_first_print by done.
  apply consumer_loop_drains; [done..| |done]. rewrite Hc. f_equal. lia.
Qed.

Lemma consumer_run_completes_witness :
  let self := Consumer.mk "c" [Member ORDER] 2 inbox in
  let w := history [Subscribe (Member ORDER) inbox; Publish o1; Publish o2; Publish o3]
             fresh in
  (Forall has_value (Consumer.interested_types self)
   ∧ items w (Consumer.message_queue self) = [o1; o2] ++ [o3]
   ∧ Forall printable [o1; o2]
   ∧ length [o1; o2] = Z.to_nat (Consumer.count self) ∧ length [o1; o2] ≤ 5)
  ∧ ∃ w', Consumer.run 5 self w = Some (Returns tt w')
    ∧ items w' (Consumer.message_queue self) = [o3]
    ∧ (∀ q, q ≠ Consumer.message_queue self → items w' q = items w q)
    ∧ bus w' = bus w
    ∧ trace w' = trace w ++ (EvGet (Consumer.message_queue self) <$> [o1; o2]).
Proof.
  intros self w.
  assert (Forall has_value (Consumer.interested_types self)) as H1
    by (repeat constructor).
  assert (items w (Consumer.message_queue self) = [o1; o2] ++ [o3]) as H2
    by (vm_compute; reflexivity).
  assert (Forall printable [o1; o2]) as H3 by (repeat constructor).
  assert (length [o1; o2] ≤ 5) as H5 by (simpl; lia).
  split; [by split_and!|].
  exact (consumer_run_completes self [o1; o2] [o3] 5 w H1 H2 H3 eq_refl H5).
Defined.

Lemma consumer_loop_starves (self : Consumer.t) fuel consumed w :
  (Z.of_nat (length (items w (Consumer.message_queue self)))
   < Consumer.count self - consumed)%Z →
  Forall printable (items w (Consumer.message_queue self)) →
  Consumer.loop fuel self consumed w = None.
Proof.
  revert consumed w. induction fuel as [|fuel IH]; intros consumed w Hlt Hp; simpl.
  - by rewrite decide_True by lia.
  - rewrite decide_True by lia. unfold get.
    destruct (items w (Consumer.message_queue self)) as [|m rest] eqn:Hit.
    + apply IH; rewrite Hit; [done|constructor].
    + apply Forall_cons in Hp as [Hm Hrest]. set (w1 := mkWorld _ _ _).
      destruct (Message_str_printable m w1 Hm) as [s ->].
      assert (items w1 (Consumer.message_queue self) = rest) as E.
      { unfold items, w1. simpl. by rewrite lookup_insert_eq. }
      apply IH; rewrite E; [|done]. simpl in Hlt. lia.
Qed.

(** A consumer whose queue holds fewer than [count] messages, with nobody
    publishing, never finishes: once the queue is empty every turn of its
    loop times out on [get] and the loop goes on, whatever the number of
    turns. *)
Theorem consumer_run_starves (self : Consumer.t) fuel w :
  Forall has_value (Consumer.interested_types self) →
  (Z.of_nat (length (items w (Consumer.message_queue self))) < Consumer.count self)%Z →
  Forall printable (items w (Consumer.message_queue self)) →
  Consumer.run fuel self w = None.
Proof.
  intros Hty Hlt Hp. unfold Consumer.run. rewrite consumer_first_print by done.
  apply consumer_loop_starves; [lia|done].
Qed.

Lemma consumer_run_starves_witness :
  let self := Consumer.mk "c" [Member ORDER] 3 inbox in
  let w := history [Subscribe (Member ORDER) inbox; Publish o1; Publish o2] fresh in
  (Forall has_value (Consumer.interested_types self)
   ∧ (Z.of_nat (length (items w (Consumer.message_queue self))) < Consumer.count self)%Z
   ∧ Forall printable (items w (Consumer.message_queue self)))
  ∧ Consumer.run 1000 self w = None.
Proof.
  intros self w.
  assert (Forall has_value (Consumer.interested_types self)) as H1
    by (repeat constructor).
  assert (Z.of_nat (length (items w (Consumer.message_queue self)))
          < Consumer.count self)%Z as H2 by (vm_compute; reflexivity).
  assert (Forall printable (items w (Consumer.message_queue self))) as H3.
  { replace (items w (Consumer.message_queue self)) with [o1; o2]
      by (vm_compute; reflexivity). repeat constructor. }
  split; [by split_and!|].
  exact (consumer_run_starves self 1000 w H1 H2 H3).
Defined.

(** ** ProcessingConsumer.run *)

Section processing.
Context (now : nat → Z) (self : ProcessingConsumer.t) (tout : MessageType).
Hypothesis Hout : ProcessingConsumer.output_type self = Member tout.




End processing.


(** ** A producer feeding a processor *)




